(** * TwoLevelHashTable: a shallow embedding and its checked properties

    Source: dbms/include/DB/Common/HashTable/TwoLevelHashTable.h

    The class is a template over the key, the cell, the hash functor and the
    first-level table [ImplTable]; the embedding keeps these as parameters.
    [size_t] values are integers in [Z] with the 64-bit wrap-around written
    out where the source does arithmetic on them. *)

From Stdlib Require Import ZArith List Lia Bool.
From Stdlib.Strings Require Import Byte.
From stdpp Require Import base decidable option list list_numbers.

Local Open Scope Z_scope.

(** ** size_t *)

Module SizeT.

Definition modulus : Z := 2 ^ 64.

Definition wrap (x : Z) : Z := x mod modulus.

Definition add (x y : Z) : Z := wrap (x + y).

(** [++x] and [--x] on a [size_t]. *)
Definition incr (x : Z) : Z := wrap (x + 1).

Definition decr (x : Z) : Z := wrap (x - 1).

End SizeT.

(** ** Streams and exceptions

    [DB::WriteBuffer], [DB::ReadBuffer], [DB::writeChar] and [DB::assertChar]
    are declared outside this header. *)

Inductive exception : Type :=
| ParseFailure
| ImplFailure (code : Z).

(** The outcome of a call that may throw. *)
Inductive outcome (A : Type) : Type :=
| Ok (a : A)
| Throw (e : exception).

Arguments Ok {A} a.
Arguments Throw {A} e.

Definition WriteBuffer : Type := list byte.

Definition ReadBuffer : Type := list byte.

Definition comma : byte := x2c.

(** Modelled from the spec: [DB::writeChar], the single-character write of
    the I/O collaborator; it appends one character to the sink. *)
Definition writeChar (c : byte) (wb : WriteBuffer) : WriteBuffer := wb ++ [c].

(** Modelled from the spec: [DB::assertChar], the single-character
    assert-and-consume primitive of the I/O collaborator; a missing expected
    character is a parse failure. *)
Definition assertChar (c : byte) (rb : ReadBuffer) : outcome ReadBuffer :=
  match rb with
  | x :: rb' => if Byte.eqb x c then Ok rb' else Throw ParseFailure
  | [] => Throw ParseFailure
  end.

(** ** The first-level table

    [ImplTable] is a template parameter of the class (by default
    [HashTable<Key, Cell, Hash, Grower, Allocator>], which is not part of
    this header).  The class below lists the members the header calls on it.
    A cell is its value, the pair of the key and the mapped value
    ([Cell::getKey] is the first projection).  [impl_cells] is the sequence
    of cells of a table in its own iteration order; it is what the contracts
    further down are stated with. *)

Class ImplTable (Key Mapped Impl It : Type) : Type := {
  impl_new : Impl;
  impl_empty : Impl -> bool;
  impl_size : Impl -> Z;
  impl_getBufferSizeInBytes : Impl -> Z;
  impl_begin : Impl -> It;
  impl_end : Impl -> It;
  (** [++it] for an iterator [it] of the given table *)
  impl_next : Impl -> It -> It;
  (** [it == rhs] *)
  impl_it_eqb : It -> It -> bool;
  (** the cell [it.getPtr()] points at, when [it] is at one *)
  impl_getPtr : Impl -> It -> option (Key * Mapped);
  (** [find(x, hash_value)] *)
  impl_find : Impl -> Key -> Z -> It;
  (** [emplace(x, it, inserted, hash_value)]: the table afterwards and the
      two out-parameters *)
  impl_emplace : Impl -> Key -> Z -> Impl * It * bool;
  (** [it.getPtr()->setMapped(x)]: writes through the pointer into the
      table's cell *)
  impl_setMapped : Impl -> It -> Mapped -> Impl;
  (** [insertUniqueNonZero(cell, hash_value)] *)
  impl_insertUniqueNonZero : Impl -> Key * Mapped -> Z -> Impl;
  impl_write : Impl -> list byte;
  impl_writeText : Impl -> list byte;
  (** [read(rb)] and [readText(rb)]: the table afterwards (also when the
      call throws) and the rest of the buffer *)
  impl_read : Impl -> ReadBuffer -> Impl * outcome ReadBuffer;
  impl_readText : Impl -> ReadBuffer -> Impl * outcome ReadBuffer;
  impl_cells : Impl -> list (Key * Mapped);
}.

(** An address of a [TwoLevelHashTable] object (the [Self *] an iterator
    keeps). *)
Definition ptr : Type := nat.

Section TwoLevelHashTable.

Context {Key Mapped : Type} `{EqDecision Key}.
Context {Impl It : Type} `{!ImplTable Key Mapped Impl It}.

(** [Hash::operator()] *)
Variable hash : Key -> Z.

(** The key [Cell::isZero] recognises. *)
Variable zero_key : Key.

Variable BITS_FOR_BUCKET : Z.

(** The default of the template parameter: [size_t BITS_FOR_BUCKET = 8]. *)
Definition DEFAULT_BITS_FOR_BUCKET : Z := 8.

Definition value_type : Type := Key * Mapped.

Definition isZero (cell : value_type) : bool := bool_decide (cell.1 = zero_key).

(** [static constexpr size_t NUM_BUCKETS = 1 << BITS_FOR_BUCKET;] *)
Definition NUM_BUCKETS : Z := Z.shiftl 1 BITS_FOR_BUCKET.

(** [static constexpr size_t MAX_BUCKET = NUM_BUCKETS - 1;] *)
Definition MAX_BUCKET : Z := NUM_BUCKETS - 1.

(** [1 << BITS_FOR_BUCKET] is a shift of an [int]: the parameter ranges over
    0..30. *)
Definition valid_bits : Prop := 0 <= BITS_FOR_BUCKET <= 30.

Definition getBucketFromHash (hash_value : Z) : Z :=
  Z.land (Z.shiftr hash_value (32 - BITS_FOR_BUCKET)) MAX_BUCKET.

(** The object: [Impl impls[NUM_BUCKETS]]. *)
Record TwoLevelHashTable : Type := { impls : list Impl }.

(** [impls[i]]; the header only indexes within [0, NUM_BUCKETS). *)
Definition impls_at (t : TwoLevelHashTable) (i : Z) : Impl :=
  default impl_new (impls t !! Z.to_nat i).

(** The object after [impls[i]] has been changed to [s]. *)
Definition impls_set (t : TwoLevelHashTable) (i : Z) (s : Impl) : TwoLevelHashTable :=
  {| impls := <[Z.to_nat i := s]> (impls t) |}.

(** [TwoLevelHashTable() {}] *)
Definition table_new : TwoLevelHashTable :=
  {| impls := replicate (Z.to_nat NUM_BUCKETS) impl_new |}.

(** The array has [NUM_BUCKETS] elements. *)
Definition table_wf (t : TwoLevelHashTable) : Prop :=
  length (impls t) = Z.to_nat NUM_BUCKETS.

(** The loop of [beginOfNextNonEmptyBucket]:
    [while (bucket != NUM_BUCKETS && impls[bucket].empty()) ++bucket;]
    [fuel] bounds the number of iterations. *)
Fixpoint skipEmptyBuckets (fuel : nat) (t : TwoLevelHashTable) (bucket : Z) : Z :=
  match fuel with
  | O => bucket
  | S fuel' =>
      if negb (bucket =? NUM_BUCKETS) && impl_empty (impls_at t bucket)
      then skipEmptyBuckets fuel' t (SizeT.incr bucket)
      else bucket
  end.

(** [beginOfNextNonEmptyBucket(size_t & bucket)]: the new value of [bucket]
    and the returned iterator.  The loop runs at most [NUM_BUCKETS] times
    from a [bucket] within the array. *)
Definition beginOfNextNonEmptyBucket (t : TwoLevelHashTable) (bucket : Z) : Z * It :=
  let bucket := skipEmptyBuckets (Z.to_nat NUM_BUCKETS) t bucket in
  if negb (bucket =? NUM_BUCKETS)
  then (bucket, impl_begin (impls_at t bucket))
  else (SizeT.decr bucket, impl_end (impls_at t MAX_BUCKET)).

(** [class iterator] *)
Record iterator : Type := {
  container : ptr;
  bucket : Z;
  current_it : It;
}.

(** [class const_iterator] *)
Record const_iterator : Type := {
  c_container : ptr;
  c_bucket : Z;
  c_current_it : It;
}.

(** [const_iterator(const iterator & rhs)] *)
Definition const_iterator_of (rhs : iterator) : const_iterator :=
  {| c_container := container rhs; c_bucket := bucket rhs; c_current_it := current_it rhs |}.

(** [iterator::operator==] *)
Definition iterator_eqb (lhs rhs : iterator) : bool :=
  (bucket lhs =? bucket rhs) && impl_it_eqb (current_it lhs) (current_it rhs).

(** [const_iterator::operator==] *)
Definition const_iterator_eqb (lhs rhs : const_iterator) : bool :=
  (c_bucket lhs =? c_bucket rhs) && impl_it_eqb (c_current_it lhs) (c_current_it rhs).

(** [iterator::operator++]; [mem] gives the object at each address, so
    [mem (container it)] is [*container]. *)
Definition iterator_incr (mem : ptr -> TwoLevelHashTable) (it : iterator) : iterator :=
  let c := mem (container it) in
  let cur := impl_next (impls_at c (bucket it)) (current_it it) in
  if impl_it_eqb cur (impl_end (impls_at c (bucket it)))
  then
    let '(bucket', cur') := beginOfNextNonEmptyBucket c (SizeT.incr (bucket it)) in
    {| container := container it; bucket := bucket'; current_it := cur' |}
  else {| container := container it; bucket := bucket it; current_it := cur |}.

(** [const_iterator::operator++] *)
Definition const_iterator_incr (mem : ptr -> TwoLevelHashTable) (it : const_iterator)
  : const_iterator :=
  let c := mem (c_container it) in
  let cur := impl_next (impls_at c (c_bucket it)) (c_current_it it) in
  if impl_it_eqb cur (impl_end (impls_at c (c_bucket it)))
  then
    let '(bucket', cur') := beginOfNextNonEmptyBucket c (SizeT.incr (c_bucket it)) in
    {| c_container := c_container it; c_bucket := bucket'; c_current_it := cur' |}
  else {| c_container := c_container it; c_bucket := c_bucket it; c_current_it := cur |}.

(** [iterator::getPtr], read in the object the iterator belongs to. *)
Definition iterator_getPtr (mem : ptr -> TwoLevelHashTable) (it : iterator) : option value_type :=
  impl_getPtr (impls_at (mem (container it)) (bucket it)) (current_it it).

Definition const_iterator_getPtr (mem : ptr -> TwoLevelHashTable) (it : const_iterator)
  : option value_type :=
  impl_getPtr (impls_at (mem (c_container it)) (c_bucket it)) (c_current_it it).

(** [begin()]; [this] is the address of the object [t]. *)
Definition begin (this : ptr) (t : TwoLevelHashTable) : iterator :=
  let '(buck, impl_it) := beginOfNextNonEmptyBucket t 0 in
  {| container := this; bucket := buck; current_it := impl_it |}.

(** [end()] *)
Definition end_ (this : ptr) (t : TwoLevelHashTable) : iterator :=
  {| container := this; bucket := MAX_BUCKET; current_it := impl_end (impls_at t MAX_BUCKET) |}.

(** [emplace(Key x, iterator & it, bool & inserted, size_t hash_value)]: the
    object afterwards, [it] and [inserted]. *)
Definition emplace_hash (this : ptr) (t : TwoLevelHashTable) (x : Key) (hash_value : Z)
  : TwoLevelHashTable * iterator * bool :=
  let buck := getBucketFromHash hash_value in
  let '(s, impl_it, inserted) := impl_emplace (impls_at t buck) x hash_value in
  (impls_set t buck s,
   {| container := this; bucket := buck; current_it := impl_it |},
   inserted).

(** [emplace(Key x, iterator & it, bool & inserted)] *)
Definition emplace (this : ptr) (t : TwoLevelHashTable) (x : Key)
  : TwoLevelHashTable * iterator * bool :=
  let hash_value := hash x in
  emplace_hash this t x hash_value.

(** [insert(const value_type & x)]: the object afterwards and the returned
    pair. *)
Definition insert (this : ptr) (t : TwoLevelHashTable) (x : value_type)
  : TwoLevelHashTable * (iterator * bool) :=
  let hash_value := hash x.1 in
  let '(t, res_first, res_second) := emplace_hash this t x.1 hash_value in
  let t :=
    if res_second
    then impls_set t (bucket res_first)
           (impl_setMapped (impls_at t (bucket res_first)) (current_it res_first) x.2)
    else t in
  (t, (res_first, res_second)).

(** [find(Key x)] *)
Definition find (this : ptr) (t : TwoLevelHashTable) (x : Key) : iterator :=
  let hash_value := hash x in
  let buck := getBucketFromHash hash_value in
  let found := impl_find (impls_at t buck) x hash_value in
  if negb (impl_it_eqb found (impl_end (impls_at t buck)))
  then {| container := this; bucket := buck; current_it := found |}
  else end_ this t.

(** The bucket indices a [for (size_t i = 0; i < NUM_BUCKETS; ++i)] loop
    runs over. *)
Definition buckets : list Z := seqZ 0 NUM_BUCKETS.

(** [write(DB::WriteBuffer & wb)] *)
Definition write (t : TwoLevelHashTable) (wb : WriteBuffer) : WriteBuffer :=
  foldl (fun wb i => wb ++ impl_write (impls_at t i)) wb buckets.

(** [writeText(DB::WriteBuffer & wb)] *)
Definition writeText (t : TwoLevelHashTable) (wb : WriteBuffer) : WriteBuffer :=
  foldl
    (fun wb i =>
       let wb := if negb (i =? 0) then writeChar comma wb else wb in
       wb ++ impl_writeText (impls_at t i))
    wb buckets.

(** The loop of [read] over the indices [ixs]; an exception of
    [impls[i].read] leaves the loop with the object as it is then. *)
Fixpoint read_loop (t : TwoLevelHashTable) (rb : ReadBuffer) (ixs : list Z)
  : TwoLevelHashTable * outcome ReadBuffer :=
  match ixs with
  | [] => (t, Ok rb)
  | i :: ixs' =>
      let '(s, r) := impl_read (impls_at t i) rb in
      let t := impls_set t i s in
      match r with
      | Ok rb => read_loop t rb ixs'
      | Throw e => (t, Throw e)
      end
  end.

(** [read(DB::ReadBuffer & rb)] *)
Definition read (t : TwoLevelHashTable) (rb : ReadBuffer)
  : TwoLevelHashTable * outcome ReadBuffer :=
  read_loop t rb buckets.

(** The loop of [readText] over the indices [ixs]. *)
Fixpoint readText_loop (t : TwoLevelHashTable) (rb : ReadBuffer) (ixs : list Z)
  : TwoLevelHashTable * outcome ReadBuffer :=
  match ixs with
  | [] => (t, Ok rb)
  | i :: ixs' =>
      match (if negb (i =? 0) then assertChar comma rb else Ok rb) with
      | Throw e => (t, Throw e)
      | Ok rb =>
          let '(s, r) := impl_readText (impls_at t i) rb in
          let t := impls_set t i s in
          match r with
          | Ok rb => readText_loop t rb ixs'
          | Throw e => (t, Throw e)
          end
      end
  end.

(** [readText(DB::ReadBuffer & rb)] *)
Definition readText (t : TwoLevelHashTable) (rb : ReadBuffer)
  : TwoLevelHashTable * outcome ReadBuffer :=
  readText_loop t rb buckets.

(** [size()] *)
Definition size (t : TwoLevelHashTable) : Z :=
  foldl (fun res i => SizeT.add res (impl_size (impls_at t i))) 0 buckets.

(** [empty()] *)
Definition empty (t : TwoLevelHashTable) : bool :=
  forallb (fun i => impl_empty (impls_at t i)) buckets.

(** [getBufferSizeInBytes()] *)
Definition getBufferSizeInBytes (t : TwoLevelHashTable) : Z :=
  foldl (fun res i => SizeT.add res (impl_getBufferSizeInBytes (impls_at t i))) 0 buckets.

(** The body of the copying loop of the converting constructor:
    [impls[buck].insertUniqueNonZero(cell, hash_value)] with the hash
    [cell->getHash(src)] the source gives. *)
Definition insertCell (getHash : value_type -> Z) (t : TwoLevelHashTable) (cell : value_type)
  : TwoLevelHashTable :=
  let hash_value := getHash cell in
  let buck := getBucketFromHash hash_value in
  impls_set t buck (impl_insertUniqueNonZero (impls_at t buck) cell hash_value).

(** [TwoLevelHashTable(const Source & src)].  The source table is given by
    the cells its iteration yields, in that order, and by [getHash], the
    value of [cell->getHash(src)]. *)
Definition TwoLevelHashTable_of (this : ptr) (src : list value_type)
    (getHash : value_type -> Z) : TwoLevelHashTable :=
  let t := table_new in
  let '(t, it) :=
    match src with
    | cell :: rest => if isZero cell then ((insert this t cell).1, rest) else (t, src)
    | [] => (t, src)
    end in
  foldl (insertCell getHash) t it.

(** The loop [for (it = begin(); it != end(); ++it)] over the object at
    [this], collecting the cells [it.getPtr()] points at.  [None] when
    [fuel] tests of the loop condition do not reach [end()]. *)
Fixpoint traverse_from (fuel : nat) (mem : ptr -> TwoLevelHashTable)
    (it last : iterator) : option (list value_type) :=
  match fuel with
  | O => None
  | S fuel' =>
      if iterator_eqb it last then Some []
      else
        match iterator_getPtr mem it with
        | None => None
        | Some cell =>
            match traverse_from fuel' mem (iterator_incr mem it) last with
            | None => None
            | Some cells => Some (cell :: cells)
            end
        end
  end.

Definition traverse (fuel : nat) (mem : ptr -> TwoLevelHashTable) (this : ptr)
  : option (list value_type) :=
  traverse_from fuel mem (begin this (mem this)) (end_ this (mem this)).

(** The same loop with [const_iterator]:
    [for (const_iterator it = begin(); it != end(); ++it)] over an object
    that is not const, so that [begin()] and [end()] are the members that
    return [iterator] and both cursors go through the converting
    constructor [const_iterator(const iterator &)]. *)
Fixpoint ctraverse_from (fuel : nat) (mem : ptr -> TwoLevelHashTable)
    (it last : const_iterator) : option (list value_type) :=
  match fuel with
  | O => None
  | S fuel' =>
      if const_iterator_eqb it last then Some []
      else
        match const_iterator_getPtr mem it with
        | None => None
        | Some cell =>
            match ctraverse_from fuel' mem (const_iterator_incr mem it) last with
            | None => None
            | Some cells => Some (cell :: cells)
            end
        end
  end.

Definition ctraverse (fuel : nat) (mem : ptr -> TwoLevelHashTable) (this : ptr)
  : option (list value_type) :=
  ctraverse_from fuel mem (const_iterator_of (begin this (mem this)))
    (const_iterator_of (end_ this (mem this))).

(** All cells of the object, bucket after bucket. *)
Definition table_cells (t : TwoLevelHashTable) : list value_type :=
  concat (impl_cells <$> impls t).

(** The cursor [beginOfNextNonEmptyBucket] leads to from bucket [b]. *)
Definition cursor_from (this : ptr) (t : TwoLevelHashTable) (b : Z) : iterator :=
  let '(bucket', cur') := beginOfNextNonEmptyBucket t b in
  {| container := this; bucket := bucket'; current_it := cur' |}.

(** Invariant I1 of the spec: every cell is in the bucket the routing
    function gives for the hash of its key. *)
Definition routed (t : TwoLevelHashTable) : Prop :=
  forall i c, 0 <= i < NUM_BUCKETS ->
    c ∈ impl_cells (impls_at t i) -> getBucketFromHash (hash c.1) = i.

(** Invariant I2 of the spec: no key is in two cells of the object. *)
Definition unique_keys (t : TwoLevelHashTable) : Prop :=
  NoDup (table_cells t).*1.

(** Calls that add a key to the object. *)
Inductive request : Type :=
| Insert (x : value_type)
| Emplace (x : Key).

Definition request_key (r : request) : Key :=
  match r with
  | Insert x => x.1
  | Emplace x => x
  end.

Definition apply_request (this : ptr) (t : TwoLevelHashTable) (r : request)
  : TwoLevelHashTable :=
  match r with
  | Insert x => (insert this t x).1
  | Emplace x => (emplace this t x).1.1
  end.

(** The object after the calls [rs], made in this order. *)
Definition run (this : ptr) (rs : list request) (t : TwoLevelHashTable)
  : TwoLevelHashTable :=
  foldl (apply_request this) t rs.

(** What the converting constructor expects of the source table: its keys
    are distinct, only the first cell of its iteration may have the zero
    key, and it has the same hash function. *)
Definition source_ok (src : list value_type) (getHash : value_type -> Z) : Prop :=
  NoDup src.*1 /\
  (forall c, c ∈ tail src -> c.1 <> zero_key) /\
  (forall c, c ∈ src -> getHash c = hash c.1).

(** The cell [z] is the first cell of bucket [b], and the buckets before
    [b] have no cells. *)
Definition first_cell_at (t : TwoLevelHashTable) (z : value_type) (b : Z) : Prop :=
  (forall i, 0 <= i < b -> impl_cells (impls_at t i) = []) /\
  exists l, impl_cells (impls_at t b) = z :: l.

(** The cells of the buckets from index [b] on. *)
Definition cells_from (t : TwoLevelHashTable) (b : Z) : list value_type :=
  concat (impl_cells <$> drop (Z.to_nat b) (impls t)).

(** [r] is the first bucket from [b] on that does not report empty, or
    [NUM_BUCKETS] when there is none. *)
Definition first_nonempty_from (t : TwoLevelHashTable) (b r : Z) : Prop :=
  b <= r <= NUM_BUCKETS /\
  (forall i, b <= i < r -> impl_empty (impls_at t i) = true) /\
  (r < NUM_BUCKETS -> impl_empty (impls_at t r) = false).

(** Bucket by bucket the same cells, up to their order. *)
Definition same_cells (l' l : list Impl) : Prop :=
  Forall2 (fun s' s => impl_cells s' ≡ₚ impl_cells s) l' l.

(** The sum of a list of integers, without wrap-around. *)
Definition sum_Z (l : list Z) : Z := foldr Z.add 0 l.

(** The number of cells of the object as an unbounded integer; it fits a
    [size_t] for every object that fits the address space. *)
Definition table_count (t : TwoLevelHashTable) : Z :=
  sum_Z (impl_size <$> impls t).

Definition table_fits (t : TwoLevelHashTable) : Prop :=
  table_count t < SizeT.modulus.

End TwoLevelHashTable.

(** ** The contract of the first-level table

    What the header relies on of its [ImplTable] parameter.  [HashTable.h]
    is not among the sources, so the contract is taken from the spec's list
    of required capabilities of the shard table and stated with
    [impl_cells].  The hash passed to the table is the one [hash] gives for
    the key, as all calls of the header but [emplace] with a caller-supplied
    hash make sure.  The properties below name the parts of the contract
    they rest on as hypotheses. *)

Section ImplContract.

Context {Key Mapped Impl It : Type} `{!ImplTable Key Mapped Impl It}.

Variable hash : Key -> Z.

Variable zero_key : Key.

(** Stepping an iterator of [s] from [it] up to [s.end()] passes the cells
    [l], in this order. *)
Inductive impl_walk (s : Impl) : It -> list (Key * Mapped) -> Prop :=
| walk_end it :
    impl_it_eqb it (impl_end s) = true ->
    impl_walk s it []
| walk_step it c l :
    impl_it_eqb it (impl_end s) = false ->
    impl_getPtr s it = Some c ->
    impl_walk s (impl_next s it) l ->
    impl_walk s it (c :: l).

(** Modelled from the spec: the shard table's "empty/size query";
    [size()] counts the cells and [empty()] tests [size()] for zero. *)
Record ImplSizeSpec : Prop := {
  impl_size_cells : forall s, impl_size s = Z.of_nat (length (impl_cells s));
  impl_empty_size : forall s, impl_empty s = true <-> impl_size s = 0;
}.

(** Modelled from the spec: the shard table's "begin/end cursor";
    iterating from [begin()] to [end()] yields the cells, and an iterator
    equals itself. *)
Record ImplIterSpec : Prop := {
  impl_it_eqb_refl : forall it : It, impl_it_eqb it it = true;
  impl_begin_walk : forall s, impl_walk s (impl_begin s) (impl_cells s);
}.

(** Modelled from the spec: the shard table's "lookup-by-key-and-hash",
    "reserve-or-locate-by-key-and-hash (returning inserted flag)" and
    "unchecked unique-insert-by-cell-and-hash fast path", and the cell's
    "install a mapped payload into a reserved slot". *)
Record ImplLookupSpec : Prop := {
  impl_new_cells : impl_cells impl_new = [];
  impl_find_hit : forall s k,
    k ∈ (impl_cells s).*1 ->
    impl_it_eqb (impl_find s k (hash k)) (impl_end s) = false /\
    exists c, impl_getPtr s (impl_find s k (hash k)) = Some c /\ c.1 = k /\ c ∈ impl_cells s;
  impl_find_miss : forall s k,
    k ∉ (impl_cells s).*1 ->
    impl_it_eqb (impl_find s k (hash k)) (impl_end s) = true;
  (** a new slot holds the key and a mapped value that is not specified *)
  impl_emplace_miss : forall s k,
    k ∉ (impl_cells s).*1 ->
    exists s' it m,
      impl_emplace s k (hash k) = (s', it, true) /\
      impl_cells s' ≡ₚ (k, m) :: impl_cells s /\
      impl_getPtr s' it = Some (k, m);
  impl_emplace_hit : forall s k,
    k ∈ (impl_cells s).*1 ->
    exists it c,
      impl_emplace s k (hash k) = (s, it, false) /\
      impl_getPtr s it = Some c /\ c.1 = k /\ c ∈ impl_cells s;
  impl_setMapped_cells : forall s it k m v,
    impl_getPtr s it = Some (k, m) ->
    exists l1 l2,
      impl_cells s = l1 ++ (k, m) :: l2 /\
      impl_cells (impl_setMapped s it v) = l1 ++ (k, v) :: l2 /\
      impl_getPtr (impl_setMapped s it v) it = Some (k, v);
  impl_insertUniqueNonZero_cells : forall s c,
    c.1 <> zero_key ->
    c.1 ∉ (impl_cells s).*1 ->
    impl_cells (impl_insertUniqueNonZero s c (hash c.1)) ≡ₚ c :: impl_cells s;
}.

(** Modelled from the spec: the shard table's "binary and text write/read
    of its full contents"; what a table writes, a newly constructed table
    reads back, up to the order of the cells, and leaves the rest of the
    buffer. *)
Record ImplSerialSpec : Prop := {
  impl_write_read : forall s rest,
    exists s',
      impl_read impl_new (impl_write s ++ rest) = (s', Ok rest) /\
      impl_cells s' ≡ₚ impl_cells s;
  impl_writeText_readText : forall s rest,
    exists s',
      impl_readText impl_new (impl_writeText s ++ rest) = (s', Ok rest) /\
      impl_cells s' ≡ₚ impl_cells s;
}.

End ImplContract.

(** ** Spec-side definitions *)

(** The payloads [l] separated by single [sep] characters, none leading or
    trailing. *)
Fixpoint separated_by (sep : byte) (l : list (list byte)) : list byte :=
  match l with
  | [] => []
  | [x] => x
  | x :: l' => x ++ sep :: separated_by sep l'
  end.

(** ** A reference first-level table

    A small table that meets the contract; the properties below are
    instantiated at it. *)

Module Reference.

(** Modelled from the spec: the shard table ([HashTable.h] is not part of
    the sources), "a single flat hash table keyed by the same key/value
    types, exposing insert-or-locate, lookup, iteration, size, and
    serialization primitives", with the sentinel (zero-key) entry "stored
    and detected specially".  Keys and mapped values are bytes; the table is
    the list of its cells in iteration order, the zero-key cell in front; an
    iterator is a position in that list. *)
Definition RefTable : Type := list (byte * byte).

(** The zero key of byte keys. *)
Definition zero : byte := x00.

(** The position of the first cell with key [k], the length when there is
    none. *)
Fixpoint index_of (k : byte) (s : RefTable) : nat :=
  match s with
  | [] => O
  | c :: s' => if Byte.eqb c.1 k then O else S (index_of k s')
  end.

(** [emplace]: a key that is there is located; the zero key gets the slot in
    front, any other key a slot at the end; the mapped value of a new slot
    is a placeholder. *)
Definition ref_emplace (s : RefTable) (k : byte) (hash_value : Z) : RefTable * nat * bool :=
  let i := index_of k s in
  if (i <? length s)%nat then (s, i, false)
  else if Byte.eqb k zero then ((k, x00) :: s, O, true)
  else (s ++ [(k, x00)], length s, true).

(** [setMapped] through an iterator at a cell. *)
Definition ref_setMapped (s : RefTable) (it : nat) (v : byte) : RefTable :=
  match s !! it with
  | Some c => <[it := (c.1, v)]> s
  | None => s
  end.

(** Cells are written as a marker and the two bytes, and closed by a
    terminator. *)
Definition encode (mark stop : byte) (s : RefTable) : list byte :=
  flat_map (fun c : byte * byte => [mark; c.1; c.2]) s ++ [stop].

(** The cells up to the terminator and the rest of the buffer. *)
Fixpoint decode (mark stop : byte) (rb : list byte) : option (RefTable * list byte) :=
  match rb with
  | [] => None
  | m :: rb' =>
      if Byte.eqb m stop then Some ([], rb')
      else if Byte.eqb m mark then
        match rb' with
        | k :: v :: rb'' =>
            match decode mark stop rb'' with
            | Some (s, rest) => Some ((k, v) :: s, rest)
            | None => None
            end
        | _ => None
        end
      else None
  end.

(** [read]: the table becomes what the buffer holds; a buffer that does not
    parse is a failure of the table's own. *)
Definition ref_read (mark stop : byte) (s : RefTable) (rb : ReadBuffer)
  : RefTable * outcome ReadBuffer :=
  match decode mark stop rb with
  | Some (s', rest) => (s', Ok rest)
  | None => ([], Throw (ImplFailure 1))
  end.

(** Modelled from the spec: the members of the shard table, on
    [RefTable].  The hash is not needed to find a key in a list. *)
#[export] Instance ref_impl : ImplTable byte byte RefTable nat := {|
  impl_new := [];
  impl_empty s := (length s =? 0)%nat;
  impl_size s := Z.of_nat (length s);
  impl_getBufferSizeInBytes s := 2 * Z.of_nat (length s);
  impl_begin s := O;
  impl_end s := length s;
  impl_next s it := S it;
  impl_it_eqb := Nat.eqb;
  impl_getPtr s it := s !! it;
  impl_find s k hash_value := index_of k s;
  impl_emplace := ref_emplace;
  impl_setMapped := ref_setMapped;
  impl_insertUniqueNonZero s c hash_value := s ++ [c];
  impl_write := encode x01 x00;
  impl_writeText := encode x28 x3b;
  impl_read := ref_read x01 x00;
  impl_readText := ref_read x28 x3b;
  impl_cells s := s;
|}.

#[export] Instance byte_eq_dec : EqDecision byte := Byte.byte_eq_dec.

(** A hash functor for byte keys: the key plus one, in the top byte of a
    32-bit value. *)
Definition ref_hash (k : byte) : Z :=
  Z.shiftl ((Z.of_N (Byte.to_N k) + 1) mod 256) 24.

(** The object with the given buckets followed by empty ones, up to 256
    buckets. *)
Definition table_of (l : list RefTable) : @TwoLevelHashTable RefTable :=
  {| impls := l ++ replicate (256 - length l)%nat [] |}.

(** An object of 256 buckets with two empty buckets in front: the cells
    with the keys 1, 2 and 3 are in the buckets [ref_hash] routes them to. *)
Definition sample : @TwoLevelHashTable RefTable :=
  table_of [[]; []; [(x01, x0a)]; [(x02, x0b)]; [(x03, x0c)]].

(** An object with four buckets ([BITS_FOR_BUCKET = 2]). *)
Definition small : @TwoLevelHashTable RefTable :=
  {| impls := [[(x01, x02)]; []; [(x03, x04)]; []] |}.

(** An object with the same bucket 2 as far as positions go, but another
    cell in it. *)
Definition other : @TwoLevelHashTable RefTable :=
  table_of [[]; []; [(x01, x63)]].

(** A source table that starts with the zero cell; the key 255 hashes to
    bucket 0, the zero key to bucket 1. *)
Definition source_255 : list (byte * byte) := [(x00, x0a); (xff, x0b)].

(** A source table whose other cell hashes to bucket 6. *)
Definition source_5 : list (byte * byte) := [(x00, x0a); (x05, x0b)].

(** [cell->getHash(src)] of a source with the same hash function. *)
Definition ref_getHash (c : byte * byte) : Z := ref_hash c.1.

(** The object the converting constructor builds from a source, at
    address 0, with 256 buckets. *)
Definition converted (src : list (byte * byte)) : @TwoLevelHashTable RefTable :=
  TwoLevelHashTable_of ref_hash zero 8 O src ref_getHash.

End Reference.

(** * Properties *)

(** ** Arithmetic of [size_t] and of the bucket count *)

Lemma wrap_small x : 0 <= x < SizeT.modulus -> SizeT.wrap x = x.
Proof. intros Hx. unfold SizeT.wrap. now apply Z.mod_small. Qed.

Lemma incr_small x : 0 <= x < SizeT.modulus - 1 -> SizeT.incr x = x + 1.
Proof. intros Hx. unfold SizeT.incr. apply wrap_small. lia. Qed.

Lemma decr_small x : 0 < x < SizeT.modulus -> SizeT.decr x = x - 1.
Proof. intros Hx. unfold SizeT.decr. apply wrap_small. lia. Qed.

Lemma modulus_eq : SizeT.modulus = 18446744073709551616.
Proof. reflexivity. Qed.

Lemma sum_Z_cons (x : Z) (l : list Z) : sum_Z (x :: l) = x + sum_Z l.
Proof. reflexivity. Qed.

Lemma NUM_BUCKETS_pow B : NUM_BUCKETS B = 2 ^ B.
Proof. unfold NUM_BUCKETS. apply Z.shiftl_1_l. Qed.

Lemma NUM_BUCKETS_range B : valid_bits B -> 1 <= NUM_BUCKETS B <= 1073741824.
Proof.
  intros [H0 H30]. rewrite NUM_BUCKETS_pow. split.
  - pose proof (Z.pow_pos_nonneg 2 B). lia.
  - change 1073741824 with (2 ^ 30). apply Z.pow_le_mono_r; lia.
Qed.

Lemma getBucketFromHash_range B h :
  valid_bits B -> 0 <= getBucketFromHash B h < NUM_BUCKETS B.
Proof.
  intros [H0 H30]. unfold getBucketFromHash, MAX_BUCKET.
  rewrite NUM_BUCKETS_pow.
  replace (2 ^ B - 1) with (Z.ones B) by (rewrite Z.ones_equiv; lia).
  rewrite Z.land_ones by assumption.
  apply Z.mod_pos_bound. apply Z.pow_pos_nonneg; lia.
Qed.

(** C1. The routing function returns [(h >> (32 - B)) & (2^B - 1)] for every
    hash value [h]; with the default [B = 8] this is [(h >> 24) & 0xFF], and
    the hashes 0x00000000, 0x01000000 and 0xFF000000 route to the buckets 0,
    1 and 255. *)
Theorem getBucketFromHash_formula :
  (forall B h, getBucketFromHash B h = Z.land (Z.shiftr h (32 - B)) (2 ^ B - 1)) /\
  DEFAULT_BITS_FOR_BUCKET = 8 /\
  (forall h, getBucketFromHash DEFAULT_BITS_FOR_BUCKET h = Z.land (Z.shiftr h 24) 255) /\
  getBucketFromHash DEFAULT_BITS_FOR_BUCKET 0 = 0 /\
  getBucketFromHash DEFAULT_BITS_FOR_BUCKET 16777216 = 1 /\
  getBucketFromHash DEFAULT_BITS_FOR_BUCKET 4278190080 = 255.
Proof.
  split; [|repeat split].
  intros B h. unfold getBucketFromHash, MAX_BUCKET. now rewrite NUM_BUCKETS_pow.
Qed.

(** ** The array of buckets *)

Section Buckets.

Context {Key Mapped Impl It : Type} `{!ImplTable Key Mapped Impl It}.

Variable B : Z.

Implicit Types (t : @TwoLevelHashTable Impl) (s : Impl) (i j : Z).

Lemma impls_at_lookup t i s : impls t !! Z.to_nat i = Some s -> impls_at t i = s.
Proof. unfold impls_at. now intros ->. Qed.

Lemma lookup_impls_at t i :
  table_wf B t -> 0 <= i < NUM_BUCKETS B -> impls t !! Z.to_nat i = Some (impls_at t i).
Proof.
  intros Hwf Hi. unfold impls_at.
  destruct (impls t !! Z.to_nat i) eqn:E; [reflexivity|].
  apply lookup_ge_None in E. unfold table_wf in Hwf. lia.
Qed.

Lemma impls_set_wf t i s : table_wf B t -> table_wf B (impls_set t i s).
Proof. unfold table_wf, impls_set. simpl. now rewrite length_insert. Qed.

Lemma impls_at_set_eq t i s :
  table_wf B t -> 0 <= i < NUM_BUCKETS B -> impls_at (impls_set t i s) i = s.
Proof.
  intros Hwf Hi. apply impls_at_lookup. unfold impls_set. simpl.
  apply list_lookup_insert_eq. unfold table_wf in Hwf. lia.
Qed.

Lemma impls_at_set_ne t i j s :
  0 <= i -> 0 <= j -> i <> j -> impls_at (impls_set t i s) j = impls_at t j.
Proof.
  intros Hi Hj Hne. unfold impls_at, impls_set. simpl.
  rewrite list_lookup_insert_ne by lia. reflexivity.
Qed.

Lemma impls_set_same t i :
  table_wf B t -> 0 <= i < NUM_BUCKETS B -> impls_set t i (impls_at t i) = t.
Proof.
  intros Hwf Hi. destruct t as [l]. unfold impls_set. simpl. f_equal.
  apply list_insert_id. now apply (lookup_impls_at {| impls := l |}).
Qed.

Lemma table_new_wf : table_wf B (table_new B).
Proof. unfold table_wf, table_new. simpl. apply length_replicate. Qed.

Lemma impls_at_new i : impls_at (table_new B) i = impl_new.
Proof.
  unfold impls_at, table_new. simpl.
  destruct (replicate _ _ !! _) eqn:E; [|reflexivity].
  apply lookup_replicate in E. now destruct E.
Qed.

(** The loops over [0 .. NUM_BUCKETS - 1] visit the array in order. *)
Lemma impls_buckets t : table_wf B t -> impls_at t <$> buckets B = impls t.
Proof.
  intros Hwf. unfold table_wf in Hwf. apply list_eq. intros n.
  rewrite list_lookup_fmap. unfold buckets.
  destruct (decide (Z.of_nat n < NUM_BUCKETS B)) as [Hn|Hn].
  - rewrite lookup_seqZ_lt by assumption. simpl.
    replace (impls t !! n) with (impls t !! Z.to_nat (0 + Z.of_nat n))
      by (f_equal; lia).
    symmetry. apply lookup_impls_at; [exact Hwf|lia].
  - rewrite lookup_seqZ_ge by lia. simpl. symmetry. apply lookup_ge_None. lia.
Qed.

Lemma foldl_add_wrap (g : Z -> Z) (l : list Z) (a : Z) :
  foldl (fun res i => SizeT.add res (g i)) (SizeT.wrap a) l
  = SizeT.wrap (a + sum_Z (g <$> l)).
Proof.
  revert a. induction l as [|x l IH]; intros a; simpl.
  - now rewrite Z.add_0_r.
  - change (SizeT.add (SizeT.wrap a) (g x)) with (SizeT.wrap (SizeT.wrap a + g x)).
    rewrite IH. unfold SizeT.wrap.
    rewrite <- Z.add_assoc. now rewrite Zplus_mod_idemp_l.
Qed.

Lemma size_wrap_count t : table_wf B t -> size B t = SizeT.wrap (table_count t).
Proof.
  intros Hwf. unfold size, table_count.
  change 0 with (SizeT.wrap 0) at 1.
  rewrite (foldl_add_wrap (fun i => impl_size (impls_at t i))). simpl.
  rewrite <- (impls_buckets t Hwf). now rewrite <- list_fmap_compose.
Qed.

Lemma empty_forallb t : table_wf B t -> empty B t = forallb impl_empty (impls t).
Proof.
  intros Hwf. unfold empty. rewrite <- (impls_buckets t Hwf).
  generalize (buckets B). intros l. induction l as [|x l IH]; simpl; [reflexivity|].
  now rewrite IH.
Qed.

Lemma sum_Z_nonneg (l : list Z) : Forall (fun x => 0 <= x) l -> 0 <= sum_Z l.
Proof. induction 1; simpl; lia. Qed.

Lemma sum_Z_zero (l : list Z) :
  Forall (fun x => 0 <= x) l -> (sum_Z l = 0 <-> Forall (fun x => x = 0) l).
Proof.
  induction 1 as [|x l Hx Hl IH]; simpl.
  - split; [constructor|reflexivity].
  - pose proof (sum_Z_nonneg l Hl). split.
    + intros Hs. constructor; [lia|]. apply IH. lia.
    + intros Hall. inversion Hall; subst. apply IH in H3. lia.
Qed.

Lemma impl_sizes_nonneg t :
  ImplSizeSpec -> Forall (fun x => 0 <= x) (impl_size <$> impls t).
Proof.
  intros HS. apply Forall_fmap, Forall_forall. intros s _. simpl.
  rewrite (impl_size_cells HS). lia.
Qed.

Lemma table_count_nonneg t : ImplSizeSpec -> 0 <= table_count t.
Proof. intros HS. apply sum_Z_nonneg. now apply impl_sizes_nonneg. Qed.

Lemma size_count t :
  ImplSizeSpec -> table_wf B t -> table_fits t -> size B t = table_count t.
Proof.
  intros HS Hwf Hfit. rewrite size_wrap_count by assumption.
  apply wrap_small. split; [now apply table_count_nonneg|exact Hfit].
Qed.

(** C9. [empty()] is true if and only if [size()] is 0; [size()] is the sum
    of the buckets' sizes and [empty()] holds exactly when every bucket
    reports empty. *)
Theorem empty_iff_size_zero t :
  ImplSizeSpec -> table_wf B t -> table_fits t ->
  (empty B t = true <-> size B t = 0) /\
  size B t = sum_Z (impl_size <$> impls t) /\
  (empty B t = true <-> forall s, s ∈ impls t -> impl_empty s = true).
Proof.
  intros HS Hwf Hfit.
  assert (Hall : empty B t = true <-> forall s, s ∈ impls t -> impl_empty s = true).
  { rewrite empty_forallb by assumption. rewrite forallb_forall.
    split; intros Hx s Hs; apply Hx; now apply list_elem_of_In. }
  split; [|split; [now apply size_count|exact Hall]].
  rewrite size_count by assumption. unfold table_count.
  rewrite sum_Z_zero by now apply impl_sizes_nonneg.
  rewrite Hall, Forall_fmap, Forall_forall.
  split; intros Hx s Hs; specialize (Hx s Hs); simpl in *;
    now apply (impl_empty_size HS).
Qed.

End Buckets.

(** ** Serialization *)

Lemma separated_by_cons (sep : byte) (x : list byte) (l : list (list byte)) :
  separated_by sep (x :: l) = x ++ concat ((fun y => sep :: y) <$> l).
Proof.
  revert x. induction l as [|y l IH]; intros x.
  - simpl. now rewrite app_nil_r.
  - change (separated_by sep (x :: y :: l)) with (x ++ sep :: separated_by sep (y :: l)).
    now rewrite IH.
Qed.

Lemma concat_sep_length (sep : byte) (l : list (list byte)) :
  Z.of_nat (length (concat ((fun y => sep :: y) <$> l)))
  = sum_Z ((fun x => Z.of_nat (length x)) <$> l) + Z.of_nat (length l).
Proof.
  induction l as [|y l IH]; [reflexivity|].
  rewrite !fmap_cons, sum_Z_cons, concat_cons, length_app. cbn [length]. lia.
Qed.

Lemma separated_by_length (sep : byte) (l : list (list byte)) :
  l <> [] ->
  Z.of_nat (length (separated_by sep l))
  = sum_Z ((fun x => Z.of_nat (length x)) <$> l) + (Z.of_nat (length l) - 1).
Proof.
  destruct l as [|x l]; [congruence|intros _].
  rewrite separated_by_cons, length_app, Nat2Z.inj_add, concat_sep_length.
  rewrite fmap_cons, sum_Z_cons. cbn [length]. lia.
Qed.

Lemma assertChar_missing (c : byte) (rb : ReadBuffer) :
  head rb <> Some c -> assertChar c rb = Throw ParseFailure.
Proof.
  destruct rb as [|x rb]; simpl; [reflexivity|]. intros Hx.
  destruct (Byte.eqb x c) eqn:E; [|reflexivity].
  apply Byte.byte_dec_bl in E. congruence.
Qed.

Section Serialization.

Context {Key Mapped Impl It : Type} `{!ImplTable Key Mapped Impl It}.

Variable B : Z.

Implicit Types (t : @TwoLevelHashTable Impl) (s : Impl) (i j : Z).

Lemma write_fold (g : Z -> list byte) (l : list Z) (wb : WriteBuffer) :
  foldl (fun wb i => wb ++ g i) wb l = wb ++ concat (g <$> l).
Proof.
  revert wb. induction l as [|x l IH]; intros wb; simpl.
  - now rewrite app_nil_r.
  - rewrite IH. now rewrite app_assoc.
Qed.

Lemma write_concat t wb :
  table_wf B t -> write B t wb = wb ++ concat (impl_write <$> impls t).
Proof.
  intros Hwf. unfold write.
  rewrite (write_fold (fun i => impl_write (impls_at t i))).
  rewrite <- (impls_buckets B t Hwf). now rewrite <- list_fmap_compose.
Qed.

Lemma writeText_fold_nonzero (g : Z -> list byte) (l : list Z) (wb : WriteBuffer) :
  Forall (fun i => i <> 0) l ->
  foldl (fun wb i => (if negb (i =? 0) then writeChar comma wb else wb) ++ g i) wb l
  = wb ++ concat ((fun i => comma :: g i) <$> l).
Proof.
  intros Hl. revert wb. induction Hl as [|x l Hx Hl IH]; intros wb; simpl.
  - now rewrite app_nil_r.
  - rewrite IH. apply Z.eqb_neq in Hx. rewrite Hx. simpl. unfold writeChar.
    rewrite <- !app_assoc. reflexivity.
Qed.

Lemma buckets_cons : valid_bits B -> buckets B = 0 :: seqZ 1 (NUM_BUCKETS B - 1).
Proof.
  intros HB. pose proof (NUM_BUCKETS_range B HB). unfold buckets.
  rewrite seqZ_cons by lia. reflexivity.
Qed.

Lemma writeText_separated t wb :
  valid_bits B -> table_wf B t ->
  writeText B t wb = wb ++ separated_by comma (impl_writeText <$> impls t).
Proof.
  intros HB Hwf. unfold writeText.
  rewrite <- (impls_buckets B t Hwf), (buckets_cons HB).
  rewrite !fmap_cons, separated_by_cons.
  cbn [foldl]. change (negb (0 =? 0)) with false. cbv iota.
  rewrite (writeText_fold_nonzero (fun i => impl_writeText (impls_at t i))).
  - rewrite <- app_assoc. do 2 f_equal. rewrite <- !list_fmap_compose. reflexivity.
  - apply Forall_seqZ. intros. lia.
Qed.

Lemma readText_loop_app t rb (l1 l2 : list Z) :
  readText_loop t rb (l1 ++ l2)
  = match readText_loop t rb l1 with
    | (t1, Ok rb1) => readText_loop t1 rb1 l2
    | (t1, Throw e) => (t1, Throw e)
    end.
Proof.
  revert t rb. induction l1 as [|i l1 IH]; intros t rb; simpl; [reflexivity|].
  destruct (if negb (i =? 0) then assertChar comma rb else Ok rb) as [rb'|e];
    [|reflexivity].
  destruct (impl_readText (impls_at t i) rb') as [s [rb''|e]]; [|reflexivity].
  apply IH.
Qed.

Lemma readText_loop_untouched (l : list Z) t rb j :
  Forall (fun i => 0 <= i) l -> 0 <= j -> j ∉ l ->
  impls_at (readText_loop t rb l).1 j = impls_at t j.
Proof.
  intros Hl Hj. revert t rb. induction Hl as [|i l Hi Hl IH]; intros t rb Hnot; simpl.
  - reflexivity.
  - apply not_elem_of_cons in Hnot as [Hne Hnot].
    destruct (if negb (i =? 0) then assertChar comma rb else Ok rb) as [rb'|e];
      [|reflexivity].
    destruct (impl_readText (impls_at t i) rb') as [s [rb''|e]]; simpl.
    + rewrite IH by assumption. apply impls_at_set_ne; lia.
    + apply impls_at_set_ne; lia.
Qed.

(** C3. The text form is the buckets' payloads in ascending index order,
    separated by single commas, none leading or trailing: [2^B - 1] commas
    besides the payloads.  When the buckets before [i] have been read and
    the comma expected before bucket [i] is missing, [readText] throws a
    parse failure; the object keeps the buckets read so far and the buckets
    from [i] on as they were. *)
Theorem writeText_commas_readText_failure t :
  valid_bits B -> table_wf B t ->
  (forall wb,
     writeText B t wb = wb ++ separated_by comma (impl_writeText <$> impls t)) /\
  Z.of_nat (length (writeText B t []))
  = sum_Z ((fun s => Z.of_nat (length (impl_writeText s))) <$> impls t) + (2 ^ B - 1) /\
  (forall rb i t1 rb1,
     0 < i < NUM_BUCKETS B ->
     readText_loop t rb (seqZ 0 i) = (t1, Ok rb1) ->
     head rb1 <> Some comma ->
     readText B t rb = (t1, Throw ParseFailure) /\
     forall j, i <= j -> impls_at t1 j = impls_at t j).
Proof.
  intros HB Hwf. pose proof (NUM_BUCKETS_range B HB) as HN.
  split; [|split].
  - intros wb. now apply writeText_separated.
  - rewrite writeText_separated by assumption. simpl.
    rewrite separated_by_length.
    + rewrite <- list_fmap_compose, length_fmap. unfold table_wf in Hwf.
      rewrite Hwf, <- NUM_BUCKETS_pow. unfold compose. lia.
    + intros Hnil. apply (f_equal length) in Hnil. rewrite length_fmap in Hnil.
      unfold table_wf in Hwf. simpl in Hnil. lia.
  - intros rb i t1 rb1 Hi Hloop Hhead. split.
    + unfold readText, buckets.
      replace (NUM_BUCKETS B) with (i + (NUM_BUCKETS B - i)) by lia.
      rewrite seqZ_app by lia. rewrite readText_loop_app, Hloop.
      rewrite seqZ_cons by lia. simpl.
      replace (0 + i =? 0) with false by (symmetry; apply Z.eqb_neq; lia). simpl.
      now rewrite assertChar_missing.
    + intros j Hj.
      pose proof (readText_loop_untouched (seqZ 0 i) t rb j) as Hun.
      rewrite Hloop in Hun. simpl in Hun. apply Hun.
      * apply Forall_seqZ. intros. simpl. lia.
      * lia.
      * rewrite elem_of_seqZ. lia.
Qed.

End Serialization.

(** ** Writing and reading back *)

Section RoundTrip.

Context {Key Mapped Impl It : Type} `{!ImplTable Key Mapped Impl It}.

Variable B : Z.

Hypothesis HSer : ImplSerialSpec.

Implicit Types (t : @TwoLevelHashTable Impl) (s : Impl) (i j : Z).

Lemma impls_at_fresh (done : list Impl) (n : nat) :
  impls_at {| impls := done ++ replicate (S n) impl_new |} (Z.of_nat (length done))
  = impl_new.
Proof.
  apply impls_at_lookup. simpl. rewrite Nat2Z.id.
  rewrite lookup_app_r by lia. now rewrite Nat.sub_diag.
Qed.

Lemma impls_set_fresh (done : list Impl) (n : nat) s :
  impls_set {| impls := done ++ replicate (S n) impl_new |} (Z.of_nat (length done)) s
  = {| impls := (done ++ [s]) ++ replicate n impl_new |}.
Proof.
  unfold impls_set. simpl. f_equal. rewrite Nat2Z.id.
  rewrite insert_app_r_alt by lia. rewrite Nat.sub_diag. simpl.
  now rewrite <- app_assoc.
Qed.

Lemma seqZ_length_cons (k n : nat) :
  seqZ (Z.of_nat k) (Z.of_nat (S n)) = Z.of_nat k :: seqZ (Z.of_nat (S k)) (Z.of_nat n).
Proof.
  rewrite seqZ_cons by lia. f_equal. f_equal; lia.
Qed.

Lemma read_loop_written (ss done : list Impl) (rest : ReadBuffer) :
  exists ss',
    read_loop {| impls := done ++ replicate (length ss) impl_new |}
      (concat (impl_write <$> ss) ++ rest)
      (seqZ (Z.of_nat (length done)) (Z.of_nat (length ss)))
    = ({| impls := done ++ ss' |}, Ok rest) /\
    same_cells ss' ss.
Proof.
  revert done. induction ss as [|s ss IH]; intros done.
  - exists []. split; [reflexivity|constructor].
  - cbn [length fmap list_fmap concat]. rewrite seqZ_length_cons. cbn [read_loop].
    rewrite impls_at_fresh, <- app_assoc.
    destruct (impl_write_read HSer s (concat (impl_write <$> ss) ++ rest))
      as (s' & Hread & Hperm).
    fold (@fmap list _ _ _ impl_write ss). rewrite Hread, impls_set_fresh.
    destruct (IH (done ++ [s'])) as (ss' & Hloop & Hsame).
    rewrite length_app in Hloop. simpl in Hloop.
    replace (length done + 1)%nat with (S (length done)) in Hloop by lia.
    exists (s' :: ss'). split.
    + rewrite Hloop. now rewrite <- app_assoc.
    + now constructor.
Qed.

Lemma readText_loop_written (ss done : list Impl) (rest : ReadBuffer) :
  done <> [] ->
  exists ss',
    readText_loop {| impls := done ++ replicate (length ss) impl_new |}
      (concat ((fun s => comma :: impl_writeText s) <$> ss) ++ rest)
      (seqZ (Z.of_nat (length done)) (Z.of_nat (length ss)))
    = ({| impls := done ++ ss' |}, Ok rest) /\
    same_cells ss' ss.
Proof.
  revert done. induction ss as [|s ss IH]; intros done Hdone.
  - exists []. split; [reflexivity|constructor].
  - cbn [length fmap list_fmap concat]. rewrite seqZ_length_cons. cbn [readText_loop].
    assert (Hk : (Z.of_nat (length done) =? 0) = false).
    { apply Z.eqb_neq. destruct done; [congruence|simpl; lia]. }
    rewrite Hk. cbn [negb app assertChar]. change (Byte.eqb comma comma) with true.
    cbv iota. rewrite impls_at_fresh, <- app_assoc.
    destruct (impl_writeText_readText HSer s
                (concat ((fun s => comma :: impl_writeText s) <$> ss) ++ rest))
      as (s' & Hread & Hperm).
    fold (@fmap list _ _ _ (fun s => comma :: impl_writeText s) ss).
    rewrite Hread, impls_set_fresh.
    destruct (IH (done ++ [s'])) as (ss' & Hloop & Hsame).
    { now destruct done. }
    rewrite length_app in Hloop. simpl in Hloop.
    replace (length done + 1)%nat with (S (length done)) in Hloop by lia.
    exists (s' :: ss'). split.
    + rewrite Hloop. now rewrite <- app_assoc.
    + now constructor.
Qed.

Lemma same_cells_table (l' l : list Impl) :
  same_cells l' l -> concat (impl_cells <$> l') ≡ₚ concat (impl_cells <$> l).
Proof.
  induction 1 as [|s' s l' l Hs Hl IH]; simpl; [reflexivity|].
  now rewrite Hs, IH.
Qed.

Lemma same_cells_sizes (l' l : list Impl) :
  ImplSizeSpec -> same_cells l' l -> impl_size <$> l' = impl_size <$> l.
Proof.
  intros HS. induction 1 as [|s' s l' l Hs Hl IH]; simpl; [reflexivity|].
  f_equal; [|exact IH]. rewrite !(impl_size_cells HS). now rewrite Hs.
Qed.

Lemma same_cells_wf t' t :
  same_cells (impls t') (impls t) -> table_wf B t -> table_wf B t'.
Proof.
  unfold table_wf. intros Hsame <-. now apply Forall2_length in Hsame.
Qed.

Lemma read_written t rest :
  table_wf B t ->
  exists t',
    read B (table_new B) (write B t [] ++ rest) = (t', Ok rest) /\
    same_cells (impls t') (impls t).
Proof.
  intros Hwf. rewrite write_concat by assumption. simpl.
  destruct (read_loop_written (impls t) [] rest) as (ss' & Hloop & Hsame).
  exists {| impls := ss' |}. split; [|exact Hsame].
  unfold read, buckets, table_new. unfold table_wf in Hwf.
  simpl in Hloop. rewrite Hwf in Hloop.
  rewrite Z2Nat.id in Hloop; [exact Hloop|].
  rewrite NUM_BUCKETS_pow. apply Z.pow_nonneg. lia.
Qed.

Lemma readText_written t rest :
  valid_bits B -> table_wf B t ->
  exists t',
    readText B (table_new B) (writeText B t [] ++ rest) = (t', Ok rest) /\
    same_cells (impls t') (impls t).
Proof.
  intros HB Hwf. pose proof (NUM_BUCKETS_range B HB) as HN.
  rewrite writeText_separated by assumption. rewrite app_nil_l.
  unfold table_wf in Hwf.
  destruct (impls t) as [|s ss] eqn:Himpls; [simpl in Hwf; lia|].
  rewrite fmap_cons, separated_by_cons, <- app_assoc.
  unfold readText. rewrite buckets_cons by assumption. cbn [readText_loop].
  change (negb (0 =? 0)) with false. cbv iota.
  rewrite impls_at_new.
  destruct (impl_writeText_readText HSer s
              (concat ((fun y => comma :: y) <$> (impl_writeText <$> ss)) ++ rest))
    as (s' & Hread & Hperm).
  rewrite Hread.
  destruct (readText_loop_written ss [s'] rest) as (ss' & Hloop & Hsame);
    [congruence|].
  exists {| impls := s' :: ss' |}. split; [|now constructor].
  rewrite <- list_fmap_compose. unfold compose.
  simpl in Hwf. simpl in Hloop.
  replace (NUM_BUCKETS B - 1) with (Z.of_nat (length ss)) by lia.
  replace (impls_set (table_new B) 0 s')
    with {| impls := s' :: replicate (length ss) impl_new |}; [exact Hloop|].
  unfold impls_set, table_new. simpl. rewrite <- Hwf. reflexivity.
Qed.

(** C2. Writing an object, in the binary or in the text form, and reading
    the output into a newly constructed object with the same number of
    buckets gives an object with the same cells, bucket by bucket up to
    their order, and the same [size()]. *)
Theorem write_read_round_trip t rest :
  ImplSizeSpec -> valid_bits B -> table_wf B t ->
  (exists t',
     read B (table_new B) (write B t [] ++ rest) = (t', Ok rest) /\
     same_cells (impls t') (impls t) /\
     table_cells t' ≡ₚ table_cells t /\
     size B t' = size B t) /\
  (exists t',
     readText B (table_new B) (writeText B t [] ++ rest) = (t', Ok rest) /\
     same_cells (impls t') (impls t) /\
     table_cells t' ≡ₚ table_cells t /\
     size B t' = size B t).
Proof.
  intros HS HB Hwf.
  assert (Hfin : forall t', same_cells (impls t') (impls t) ->
            same_cells (impls t') (impls t) /\
            table_cells t' ≡ₚ table_cells t /\ size B t' = size B t).
  { intros t' Hsame. split; [exact Hsame|split].
    - now apply same_cells_table.
    - rewrite !size_wrap_count by (assumption || now apply (same_cells_wf t' t)).
      unfold table_count. now rewrite (same_cells_sizes _ _ HS Hsame). }
  split.
  - destruct (read_written t rest Hwf) as (t' & Hread & Hsame).
    exists t'. split; [exact Hread|now apply Hfin].
  - destruct (readText_written t rest HB Hwf) as (t' & Hread & Hsame).
    exists t'. split; [exact Hread|now apply Hfin].
Qed.

End RoundTrip.

(** ** The composite cursor *)

(** [const_iterator] repeats [iterator]: on a cursor that came through the
    converting constructor its members do what those of [iterator] do. *)
Section ConstCursor.

Context {Key Mapped Impl It : Type} `{!ImplTable Key Mapped Impl It}.

Variable B : Z.

Implicit Types (t : @TwoLevelHashTable Impl) (it : @iterator It).

Lemma const_iterator_eqb_of it it' :
  const_iterator_eqb (const_iterator_of it) (const_iterator_of it') = iterator_eqb it it'.
Proof. reflexivity. Qed.

Lemma const_iterator_getPtr_of (mem : ptr -> TwoLevelHashTable) it :
  const_iterator_getPtr mem (const_iterator_of it) = iterator_getPtr mem it.
Proof. reflexivity. Qed.

Lemma const_iterator_incr_of (mem : ptr -> TwoLevelHashTable) it :
  const_iterator_incr B mem (const_iterator_of it)
  = const_iterator_of (iterator_incr B mem it).
Proof.
  unfold const_iterator_incr, iterator_incr, const_iterator_of.
  cbn [c_container c_bucket c_current_it].
  destruct (impl_it_eqb _ _); [|reflexivity].
  now destruct (beginOfNextNonEmptyBucket B (mem (container it)) (SizeT.incr (bucket it))).
Qed.

End ConstCursor.

Section Cursor.

Context {Key Mapped Impl It : Type} `{!ImplTable Key Mapped Impl It}.

Variable B : Z.

Hypothesis HB : valid_bits B.

Hypothesis HSize : ImplSizeSpec.

Hypothesis HIter : ImplIterSpec.

Implicit Types (t : @TwoLevelHashTable Impl) (s : Impl) (i j b r : Z).

Lemma impl_empty_cells s : impl_empty s = true <-> impl_cells s = [].
Proof.
  rewrite (impl_empty_size HSize), (impl_size_cells HSize).
  destruct (impl_cells s); simpl; split; intros; (lia || congruence).
Qed.

Lemma impl_nonempty_cells s : impl_empty s = false <-> impl_cells s <> [].
Proof.
  rewrite <- impl_empty_cells. destruct (impl_empty s); split; congruence.
Qed.

Lemma skipEmptyBuckets_first (fuel : nat) t b :
  0 <= b <= NUM_BUCKETS B ->
  (Z.to_nat (NUM_BUCKETS B - b) <= fuel)%nat ->
  first_nonempty_from B t b (skipEmptyBuckets B fuel t b).
Proof.
  pose proof (NUM_BUCKETS_range B HB) as HN. pose proof modulus_eq as HM.
  revert b. induction fuel as [|fuel IH]; intros b Hb Hfuel; simpl.
  - repeat split; intros; lia.
  - destruct (Z.eqb_spec b (NUM_BUCKETS B)) as [->|Hne]; simpl.
    { repeat split; intros; lia. }
    destruct (impl_empty (impls_at t b)) eqn:E.
    + rewrite incr_small by lia.
      destruct (IH (b + 1)) as (Hr & Hbefore & Hat); [lia|lia|].
      repeat split; try lia; [|exact Hat].
      intros i Hi. destruct (Z.eq_dec i b) as [->|Hib]; [exact E|].
      apply Hbefore. lia.
    + repeat split; intros; (lia || assumption).
Qed.

Lemma first_nonempty_unique t b r1 r2 :
  first_nonempty_from B t b r1 -> first_nonempty_from B t b r2 -> r1 = r2.
Proof.
  intros (H1 & Hb1 & Ha1) (H2 & Hb2 & Ha2).
  destruct (Z.lt_trichotomy r1 r2) as [Hlt|[Heq|Hgt]]; [|exact Heq|].
  - rewrite Hb2 in Ha1 by lia. discriminate Ha1. lia.
  - rewrite Hb1 in Ha2 by lia. discriminate Ha2. lia.
Qed.

Lemma beginOfNextNonEmptyBucket_found t b r :
  0 <= b -> first_nonempty_from B t b r -> r < NUM_BUCKETS B ->
  beginOfNextNonEmptyBucket B t b = (r, impl_begin (impls_at t r)).
Proof.
  intros Hb Hfirst Hr. unfold beginOfNextNonEmptyBucket.
  assert (Hskip : skipEmptyBuckets B (Z.to_nat (NUM_BUCKETS B)) t b = r).
  { apply (first_nonempty_unique t b); [|exact Hfirst].
    destruct Hfirst as (? & _). apply skipEmptyBuckets_first; lia. }
  rewrite Hskip. now replace (r =? NUM_BUCKETS B) with false
    by (symmetry; apply Z.eqb_neq; lia).
Qed.

Lemma beginOfNextNonEmptyBucket_none t b :
  0 <= b -> first_nonempty_from B t b (NUM_BUCKETS B) ->
  beginOfNextNonEmptyBucket B t b
  = (MAX_BUCKET B, impl_end (impls_at t (MAX_BUCKET B))).
Proof.
  pose proof (NUM_BUCKETS_range B HB) as HN. pose proof modulus_eq as HM.
  intros Hb Hfirst. unfold beginOfNextNonEmptyBucket.
  assert (Hskip : skipEmptyBuckets B (Z.to_nat (NUM_BUCKETS B)) t b = NUM_BUCKETS B).
  { apply (first_nonempty_unique t b); [|exact Hfirst].
    destruct Hfirst as (? & _). apply skipEmptyBuckets_first; lia. }
  rewrite Hskip, Z.eqb_refl. simpl. rewrite decr_small by lia. reflexivity.
Qed.

Lemma beginOfNextNonEmptyBucket_skip t b :
  0 <= b < NUM_BUCKETS B -> impl_empty (impls_at t b) = true ->
  beginOfNextNonEmptyBucket B t b = beginOfNextNonEmptyBucket B t (b + 1).
Proof.
  intros Hb Hempty. unfold beginOfNextNonEmptyBucket.
  assert (Hskip : skipEmptyBuckets B (Z.to_nat (NUM_BUCKETS B)) t b
                  = skipEmptyBuckets B (Z.to_nat (NUM_BUCKETS B)) t (b + 1)).
  { apply (first_nonempty_unique t b); [apply skipEmptyBuckets_first; lia|].
    destruct (skipEmptyBuckets_first (Z.to_nat (NUM_BUCKETS B)) t (b + 1))
      as (Hr & Hbefore & Hat); [lia|lia|].
    repeat split; try lia; [|exact Hat].
    intros i Hi. destruct (Z.eq_dec i b) as [->|Hib]; [exact Hempty|].
    apply Hbefore. lia. }
  now rewrite Hskip.
Qed.

Lemma cells_from_step t b :
  table_wf B t -> 0 <= b < NUM_BUCKETS B ->
  cells_from t b = impl_cells (impls_at t b) ++ cells_from t (b + 1).
Proof.
  intros Hwf Hb. unfold cells_from.
  rewrite (drop_S (impls t) (impls_at t b) (Z.to_nat b))
    by now apply (lookup_impls_at B).
  replace (Z.to_nat (b + 1)) with (S (Z.to_nat b)) by lia. reflexivity.
Qed.

Lemma cells_from_end t : table_wf B t -> cells_from t (NUM_BUCKETS B) = [].
Proof.
  intros Hwf. unfold cells_from. rewrite drop_ge; [reflexivity|].
  unfold table_wf in Hwf. lia.
Qed.

Lemma cells_from_0 t : cells_from t 0 = table_cells t.
Proof. reflexivity. Qed.

Lemma traverse_bucket (mem : ptr -> TwoLevelHashTable) (this : ptr) t b
    (rest : list (Key * Mapped)) :
  mem this = t -> 0 <= b < NUM_BUCKETS B ->
  (forall fuel, (length rest < fuel)%nat ->
     traverse_from B fuel mem (cursor_from B this t (b + 1)) (end_ B this t) = Some rest) ->
  forall cur l,
    impl_walk (impls_at t b) cur l -> l <> [] ->
    forall fuel, (length l + length rest < fuel)%nat ->
      traverse_from B fuel mem
        {| container := this; bucket := b; current_it := cur |} (end_ B this t)
      = Some (l ++ rest).
Proof.
  pose proof (NUM_BUCKETS_range B HB) as HN. pose proof modulus_eq as HM.
  intros Hmem Hb Hnext cur l Hwalk.
  induction Hwalk as [it Hend|it c l Hend Hptr Hwalk IH]; intros Hl fuel Hfuel;
    [congruence|].
  destruct fuel as [|fuel]; [simpl in Hfuel; lia|]. cbn [traverse_from].
  assert (Heq : iterator_eqb {| container := this; bucket := b; current_it := it |}
                  (end_ B this t) = false).
  { unfold iterator_eqb, end_. cbn [bucket current_it].
    destruct (Z.eqb_spec b (MAX_BUCKET B)) as [->|Hne]; [|reflexivity].
    simpl. exact Hend. }
  rewrite Heq. unfold iterator_getPtr at 1. cbn [container bucket current_it].
  rewrite Hmem, Hptr.
  assert (Hincr : iterator_incr B mem {| container := this; bucket := b; current_it := it |}
                  = match l with
                    | [] => cursor_from B this t (b + 1)
                    | _ :: _ => {| container := this; bucket := b;
                                   current_it := impl_next (impls_at t b) it |}
                    end).
  { unfold iterator_incr. cbn [container bucket current_it]. rewrite Hmem.
    inversion Hwalk as [it' Hend'|it' c' l' Hend' Hptr' Hwalk']; subst; rewrite Hend'.
    - rewrite incr_small by lia. reflexivity.
    - reflexivity. }
  rewrite Hincr. destruct l as [|c' l].
  - rewrite Hnext by (simpl in Hfuel; lia). reflexivity.
  - rewrite IH; [reflexivity|congruence|simpl in *; lia].
Qed.

Lemma traverse_cursor_from (mem : ptr -> TwoLevelHashTable) (this : ptr) t (n : nat) :
  mem this = t -> table_wf B t -> (Z.of_nat n <= NUM_BUCKETS B) ->
  forall fuel, (length (cells_from t (NUM_BUCKETS B - Z.of_nat n)) < fuel)%nat ->
    traverse_from B fuel mem (cursor_from B this t (NUM_BUCKETS B - Z.of_nat n))
      (end_ B this t)
    = Some (cells_from t (NUM_BUCKETS B - Z.of_nat n)).
Proof.
  pose proof (NUM_BUCKETS_range B HB) as HN.
  intros Hmem Hwf. induction n as [|n IH]; intros Hn fuel Hfuel.
  - rewrite Z.sub_0_r in *. rewrite cells_from_end in * by assumption.
    unfold cursor_from. rewrite beginOfNextNonEmptyBucket_none.
    + destruct fuel as [|fuel]; [simpl in Hfuel; lia|]. cbn [traverse_from].
      unfold iterator_eqb, end_. cbn [bucket current_it].
      now rewrite Z.eqb_refl, (impl_it_eqb_refl HIter).
    + lia.
    + repeat split; intros; lia.
  - set (b := NUM_BUCKETS B - Z.of_nat (S n)) in *.
    assert (Hb : 0 <= b < NUM_BUCKETS B) by lia.
    replace (NUM_BUCKETS B - Z.of_nat n) with (b + 1) in IH by lia.
    rewrite cells_from_step in * by assumption.
    destruct (impl_empty (impls_at t b)) eqn:E.
    + unfold cursor_from. rewrite beginOfNextNonEmptyBucket_skip by assumption.
      apply impl_empty_cells in E. rewrite E in *. simpl in *.
      apply IH; [lia|assumption].
    + unfold cursor_from.
      rewrite (beginOfNextNonEmptyBucket_found t b b);
        [|lia|repeat split; intros; (lia || assumption)|lia].
      apply (traverse_bucket mem this t b).
      * exact Hmem.
      * exact Hb.
      * intros fuel' Hfuel'. apply IH; [lia|assumption].
      * apply (impl_begin_walk HIter).
      * now apply impl_nonempty_cells.
      * rewrite length_app in Hfuel. exact Hfuel.
Qed.

Lemma empty_first_nonempty t :
  table_wf B t -> empty B t = true -> first_nonempty_from B t 0 (NUM_BUCKETS B).
Proof.
  pose proof (NUM_BUCKETS_range B HB) as HN.
  intros Hwf Hempty. repeat split; try lia.
  intros i Hi. unfold empty in Hempty. rewrite forallb_forall in Hempty.
  apply Hempty. apply list_elem_of_In. unfold buckets. apply elem_of_seqZ. lia.
Qed.

Lemma traverse_all (mem : ptr -> TwoLevelHashTable) (this : ptr) :
  table_wf B (mem this) ->
  forall fuel, (length (table_cells (mem this)) < fuel)%nat ->
    traverse B fuel mem this = Some (table_cells (mem this)).
Proof.
  pose proof (NUM_BUCKETS_range B HB) as HN.
  intros Hwf fuel Hfuel. unfold traverse.
  pose proof (traverse_cursor_from mem this (mem this) (Z.to_nat (NUM_BUCKETS B))
                eq_refl Hwf) as Htr.
  rewrite Z2Nat.id, Z.sub_diag in Htr by lia.
  apply Htr; [lia|exact Hfuel].
Qed.

Lemma cells_from_skip t b :
  table_wf B t -> 0 <= b <= NUM_BUCKETS B ->
  (forall i, 0 <= i < b -> impl_cells (impls_at t i) = []) ->
  cells_from t b = table_cells t.
Proof.
  intros Hwf Hb Hempty. rewrite <- cells_from_0.
  assert (Hn : forall n : nat, Z.of_nat n <= b ->
                 cells_from t (Z.of_nat n) = cells_from t 0).
  { induction n as [|n IH]; intros Hle; [reflexivity|].
    rewrite <- IH by lia. rewrite (cells_from_step t (Z.of_nat n)) by (assumption || lia).
    rewrite Hempty by lia. simpl. f_equal. lia. }
  rewrite <- (Hn (Z.to_nat b)) by lia. f_equal. lia.
Qed.

Lemma first_cell_table_cells t z b :
  table_wf B t -> 0 <= b < NUM_BUCKETS B -> first_cell_at t z b ->
  exists l, table_cells t = z :: l.
Proof.
  intros Hwf Hb (Hempty & l & Hl).
  rewrite <- (cells_from_skip t b) by (assumption || lia).
  rewrite cells_from_step, Hl by assumption. eexists. reflexivity.
Qed.

Lemma first_cell_begin (mem : ptr -> TwoLevelHashTable) (this : ptr) z b :
  table_wf B (mem this) -> 0 <= b < NUM_BUCKETS B -> first_cell_at (mem this) z b ->
  iterator_getPtr mem (begin B this (mem this)) = Some z.
Proof.
  intros Hwf Hb (Hempty & l & Hl). unfold begin.
  rewrite (beginOfNextNonEmptyBucket_found (mem this) 0 b); [|lia| |lia].
  - unfold iterator_getPtr. cbn [container bucket current_it].
    pose proof (impl_begin_walk HIter (impls_at (mem this) b)) as Hwalk.
    rewrite Hl in Hwalk. now inversion Hwalk.
  - split; [lia|split].
    + intros i Hi. apply impl_empty_cells. now apply Hempty.
    + intros _. apply impl_nonempty_cells. now rewrite Hl.
Qed.

Lemma first_cell_begin_bucket (this : ptr) t z b :
  table_wf B t -> 0 <= b < NUM_BUCKETS B -> first_cell_at t z b ->
  bucket (begin B this t) = b.
Proof.
  intros Hwf Hb (Hempty & l & Hl). unfold begin.
  rewrite (beginOfNextNonEmptyBucket_found t 0 b); [reflexivity|lia| |lia].
  split; [lia|split].
  - intros i Hi. apply impl_empty_cells. now apply Hempty.
  - intros _. apply impl_nonempty_cells. now rewrite Hl.
Qed.

(** C4. Going from [begin()] to [end()] passes the cells of bucket 0, then
    those of bucket 1, and so on, every cell once; [begin()] is at the first
    bucket from 0 that does not report empty, at that bucket's [begin()];
    when every bucket is empty, [begin()] is [end()], which is the last
    bucket's index with the last bucket's [end()]. *)
Theorem traversal_visits_all_in_bucket_order (mem : ptr -> TwoLevelHashTable) (this : ptr) :
  table_wf B (mem this) ->
  (forall fuel, (length (table_cells (mem this)) < fuel)%nat ->
     traverse B fuel mem this = Some (table_cells (mem this))) /\
  table_cells (mem this) = concat (impl_cells <$> impls (mem this)) /\
  (forall r, first_nonempty_from B (mem this) 0 r -> r < NUM_BUCKETS B ->
     begin B this (mem this)
     = {| container := this; bucket := r;
          current_it := impl_begin (impls_at (mem this) r) |}) /\
  (empty B (mem this) = true -> begin B this (mem this) = end_ B this (mem this)) /\
  end_ B this (mem this)
  = {| container := this; bucket := NUM_BUCKETS B - 1;
       current_it := impl_end (impls_at (mem this) (NUM_BUCKETS B - 1)) |}.
Proof.
  pose proof (NUM_BUCKETS_range B HB) as HN.
  intros Hwf. split; [|split; [reflexivity|split; [|split; [|reflexivity]]]].
  - now apply traverse_all.
  - intros r Hfirst Hr. unfold begin.
    now rewrite (beginOfNextNonEmptyBucket_found (mem this) 0 r) by (assumption || lia).
  - intros Hempty. unfold begin.
    rewrite beginOfNextNonEmptyBucket_none;
      [reflexivity|lia|now apply empty_first_nonempty].
Qed.

End Cursor.

(** ** Insertion and lookup *)

Lemma NoDup_fst_eq {A C : Type} (l : list (A * C)) (c c' : A * C) :
  NoDup l.*1 -> c ∈ l -> c' ∈ l -> c.1 = c'.1 -> c = c'.
Proof.
  induction l as [|x l IH]; intros Hnd Hc Hc' Heq.
  - now apply elem_of_nil in Hc.
  - rewrite fmap_cons in Hnd. apply NoDup_cons in Hnd as [Hx Hnd].
    apply elem_of_cons in Hc as [->|Hc]; apply elem_of_cons in Hc' as [->|Hc'].
    + reflexivity.
    + exfalso. apply Hx. rewrite Heq. now apply list_elem_of_fmap_2.
    + exfalso. apply Hx. rewrite <- Heq. now apply list_elem_of_fmap_2.
    + now apply IH.
Qed.

Section Lookup.

Context {Key Mapped : Type} `{EqDecision Key}.
Context {Impl It : Type} `{!ImplTable Key Mapped Impl It}.

Variable hash : Key -> Z.

Variable zero_key : Key.

Variable B : Z.

Hypothesis HB : valid_bits B.

Hypothesis HSize : ImplSizeSpec.

Hypothesis HLookup : ImplLookupSpec hash zero_key.

Implicit Types (t : @TwoLevelHashTable Impl) (s : Impl) (i j b : Z).
Implicit Types (k : Key) (c x : Key * Mapped).

Lemma impls_split t b :
  table_wf B t -> 0 <= b < NUM_BUCKETS B ->
  exists l1 l2,
    impls t = l1 ++ impls_at t b :: l2 /\
    forall s', impls (impls_set t b s') = l1 ++ s' :: l2.
Proof.
  intros Hwf Hb.
  exists (take (Z.to_nat b) (impls t)), (drop (S (Z.to_nat b)) (impls t)). split.
  - symmetry. apply take_drop_middle. now apply (lookup_impls_at B).
  - intros s'. unfold impls_set. simpl. apply insert_take_drop.
    unfold table_wf in Hwf. lia.
Qed.

Lemma table_cells_set t b s' (X : list (Key * Mapped)) :
  table_wf B t -> 0 <= b < NUM_BUCKETS B ->
  impl_cells s' ≡ₚ X ++ impl_cells (impls_at t b) ->
  table_cells (impls_set t b s') ≡ₚ X ++ table_cells t.
Proof.
  intros Hwf Hb Hperm.
  destruct (impls_split t b Hwf Hb) as (l1 & l2 & Ht & Hset).
  unfold table_cells. rewrite Hset, Ht, !fmap_app, !fmap_cons, !concat_app.
  simpl. rewrite Hperm, <- app_assoc. apply Permutation_app_swap_app.
Qed.

Lemma table_count_cells t : table_count t = Z.of_nat (length (table_cells t)).
Proof.
  unfold table_count, table_cells. induction (impls t) as [|s l IH]; [reflexivity|].
  rewrite !fmap_cons, sum_Z_cons, concat_cons, length_app.
  rewrite (impl_size_cells HSize), IH, Nat2Z.inj_add. reflexivity.
Qed.

Lemma elem_of_table_cells t c :
  table_wf B t ->
  c ∈ table_cells t <->
  exists i, 0 <= i < NUM_BUCKETS B /\ c ∈ impl_cells (impls_at t i).
Proof.
  intros Hwf. unfold table_cells. rewrite list_elem_of_In, in_concat. split.
  - intros (l & Hl & Hc). apply list_elem_of_In in Hl, Hc.
    apply list_elem_of_fmap in Hl as (s & -> & Hs).
    apply list_elem_of_lookup in Hs as (n & Hn).
    pose proof (lookup_lt_Some _ _ _ Hn) as Hlt. unfold table_wf in Hwf.
    exists (Z.of_nat n). split; [lia|].
    rewrite (impls_at_lookup t (Z.of_nat n) s); [exact Hc|now rewrite Nat2Z.id].
  - intros (i & Hi & Hc). exists (impl_cells (impls_at t i)).
    split; apply list_elem_of_In; [|exact Hc].
    apply list_elem_of_fmap_2. eapply list_elem_of_lookup_2.
    now apply (lookup_impls_at B).
Qed.

Lemma routed_set t b s' :
  table_wf B t -> 0 <= b < NUM_BUCKETS B -> routed hash B t ->
  (forall c, c ∈ impl_cells s' -> getBucketFromHash B (hash c.1) = b) ->
  routed hash B (impls_set t b s').
Proof.
  intros Hwf Hb Hrouted Hs' i c Hi Hc.
  destruct (Z.eq_dec i b) as [->|Hne].
  - rewrite (impls_at_set_eq B) in Hc by assumption. now apply Hs'.
  - rewrite impls_at_set_ne in Hc by lia. now apply Hrouted.
Qed.

(** Under I1 a key is in the object exactly when it is in the bucket its
    hash routes to. *)
Lemma key_in_routed_bucket t k :
  table_wf B t -> routed hash B t ->
  k ∈ (table_cells t).*1 <->
  k ∈ (impl_cells (impls_at t (getBucketFromHash B (hash k)))).*1.
Proof.
  intros Hwf Hrouted. pose proof (getBucketFromHash_range B (hash k) HB) as Hb.
  split; intros Hk; apply list_elem_of_fmap in Hk as (c & -> & Hc).
  - apply elem_of_table_cells in Hc as (i & Hi & Hc); [|assumption].
    rewrite (Hrouted i c Hi Hc). now apply list_elem_of_fmap_2.
  - apply list_elem_of_fmap_2. apply elem_of_table_cells; [assumption|].
    now exists (getBucketFromHash B (hash c.1)).
Qed.

Lemma table_new_cells : table_cells (table_new B) = [].
Proof.
  unfold table_cells, table_new. cbn [impls].
  induction (Z.to_nat (NUM_BUCKETS B)) as [|n IH]; [reflexivity|].
  cbn [replicate]. rewrite fmap_cons. cbn [concat]. rewrite IH.
  now rewrite (impl_new_cells _ _ HLookup).
Qed.

Lemma table_new_routed : routed hash B (table_new B).
Proof.
  intros i c _ Hc. rewrite impls_at_new, (impl_new_cells _ _ HLookup) in Hc.
  now apply elem_of_nil in Hc.
Qed.

(** [emplace] with the hash of the key: the key is found in its bucket, or
    a slot is reserved there. *)
Lemma emplace_hash_spec (this : ptr) t k :
  table_wf B t ->
  let b := getBucketFromHash B (hash k) in
  (k ∈ (impl_cells (impls_at t b)).*1 ->
   exists cur c,
     emplace_hash B this t k (hash k)
     = (t, {| container := this; bucket := b; current_it := cur |}, false) /\
     impl_getPtr (impls_at t b) cur = Some c /\ c.1 = k /\
     c ∈ impl_cells (impls_at t b)) /\
  (k ∉ (impl_cells (impls_at t b)).*1 ->
   exists s' cur m,
     emplace_hash B this t k (hash k)
     = (impls_set t b s', {| container := this; bucket := b; current_it := cur |}, true) /\
     impl_cells s' ≡ₚ (k, m) :: impl_cells (impls_at t b) /\
     impl_getPtr s' cur = Some (k, m)).
Proof.
  intros Hwf b. pose proof (getBucketFromHash_range B (hash k) HB) as Hb.
  fold b in Hb. split; intros Hk; unfold emplace_hash; fold b.
  - destruct (impl_emplace_hit _ _ HLookup _ _ Hk) as (cur & c & Hem & Hptr & Hc & Hin).
    exists cur, c. rewrite Hem, (impls_set_same B) by assumption. now repeat split.
  - destruct (impl_emplace_miss _ _ HLookup _ _ Hk) as (s' & cur & m & Hem & Hperm & Hptr).
    exists s', cur, m. rewrite Hem. now repeat split.
Qed.

Lemma insert_spec (this : ptr) t x :
  table_wf B t ->
  let b := getBucketFromHash B (hash x.1) in
  (x.1 ∈ (impl_cells (impls_at t b)).*1 ->
   exists cur c,
     insert hash B this t x
     = (t, ({| container := this; bucket := b; current_it := cur |}, false)) /\
     impl_getPtr (impls_at t b) cur = Some c /\ c.1 = x.1 /\
     c ∈ impl_cells (impls_at t b)) /\
  (x.1 ∉ (impl_cells (impls_at t b)).*1 ->
   exists s' cur l1 l2,
     insert hash B this t x
     = (impls_set t b s', ({| container := this; bucket := b; current_it := cur |}, true)) /\
     impl_cells s' = l1 ++ x :: l2 /\
     l1 ++ l2 ≡ₚ impl_cells (impls_at t b) /\
     impl_getPtr s' cur = Some x).
Proof.
  intros Hwf b. pose proof (getBucketFromHash_range B (hash x.1) HB) as Hb.
  fold b in Hb. destruct (emplace_hash_spec this t x.1 Hwf) as [Hhit Hmiss].
  fold b in Hhit, Hmiss. split; intros Hk; unfold insert.
  - destruct (Hhit Hk) as (cur & c & Hem & Hrest). exists cur, c.
    now rewrite Hem.
  - destruct (Hmiss Hk) as (s1 & cur & m & Hem & Hperm & Hptr). rewrite Hem.
    cbn [bucket current_it]. rewrite (impls_at_set_eq B) by assumption.
    destruct (impl_setMapped_cells _ _ HLookup s1 cur x.1 m x.2 Hptr)
      as (l1 & l2 & Hs1 & Hs2 & Hptr2).
    exists (impl_setMapped s1 cur x.2), cur, l1, l2.
    replace (x.1, x.2) with x in * by now destruct x.
    repeat split; [|exact Hs2| |exact Hptr2].
    + unfold impls_set. simpl. now rewrite list_insert_insert_eq.
    + rewrite Hs1 in Hperm. symmetry in Hperm.
      apply Permutation_cons_app_inv in Hperm. now symmetry.
Qed.

(** C7. Inserting a key that is not in the object twice: the first call
    reports inserted, the second does not and leaves the object as it is;
    over both calls exactly one cell is added and [size()] grows by one;
    the cell keeps the mapped value of the first call. *)
Theorem insert_twice (this : ptr) t k (v1 v2 : Mapped) :
  table_wf B t -> table_count t + 1 < SizeT.modulus ->
  k ∉ (table_cells t).*1 ->
  exists t1 it1 it2,
    insert hash B this t (k, v1) = (t1, (it1, true)) /\
    insert hash B this t1 (k, v2) = (t1, (it2, false)) /\
    size B t1 = size B t + 1 /\
    table_cells t1 ≡ₚ (k, v1) :: table_cells t /\
    bucket it1 = getBucketFromHash B (hash k) /\
    bucket it2 = getBucketFromHash B (hash k) /\
    iterator_getPtr (fun _ => t1) it1 = Some (k, v1) /\
    iterator_getPtr (fun _ => t1) it2 = Some (k, v1).
Proof.
  intros Hwf Hfit Hk. set (b := getBucketFromHash B (hash k)).
  pose proof (getBucketFromHash_range B (hash k) HB) as Hb. fold b in Hb.
  assert (Hkb : k ∉ (impl_cells (impls_at t b)).*1).
  { intros Hin. apply Hk. apply list_elem_of_fmap in Hin as (c & -> & Hc).
    apply list_elem_of_fmap_2. apply elem_of_table_cells; [assumption|]. now exists b. }
  destruct (insert_spec this t (k, v1) Hwf) as [_ Hmiss]. simpl in Hmiss. fold b in Hmiss.
  destruct (Hmiss Hkb) as (s1 & cur1 & l1 & l2 & Hins1 & Hs1 & Hperm & Hptr1).
  set (t1 := impls_set t b s1) in *.
  assert (Hwf1 : table_wf B t1) by now apply impls_set_wf.
  assert (Hat1 : impls_at t1 b = s1) by now apply (impls_at_set_eq B).
  assert (Hcells1 : table_cells t1 ≡ₚ (k, v1) :: table_cells t).
  { apply (table_cells_set t b s1 [(k, v1)]); [assumption..|].
    rewrite Hs1, <- Hperm. symmetry. apply (Permutation_middle l1 l2 (k, v1)). }
  assert (Hkb1 : k ∈ (impl_cells (impls_at t1 b)).*1).
  { rewrite Hat1, Hs1, fmap_app, fmap_cons. apply elem_of_app. right. now left. }
  destruct (insert_spec this t1 (k, v2) Hwf1) as [Hhit _]. simpl in Hhit. fold b in Hhit.
  destruct (Hhit Hkb1) as (cur2 & c & Hins2 & Hptr2 & Hck & Hcin).
  assert (Hc : c = (k, v1)).
  { rewrite Hat1, Hs1 in Hcin. apply elem_of_app in Hcin as [Hcin|Hcin].
    - exfalso. apply Hkb. rewrite <- Hperm, fmap_app. apply elem_of_app. left.
      rewrite <- Hck. now apply list_elem_of_fmap_2.
    - apply elem_of_cons in Hcin as [Hcin|Hcin]; [exact Hcin|].
      exfalso. apply Hkb. rewrite <- Hperm, fmap_app. apply elem_of_app. right.
      rewrite <- Hck. now apply list_elem_of_fmap_2. }
  subst c.
  exists t1, {| container := this; bucket := b; current_it := cur1 |},
    {| container := this; bucket := b; current_it := cur2 |}.
  split; [exact Hins1|]. split; [exact Hins2|]. split; [|split; [exact Hcells1|]].
  - assert (Hcount : table_count t1 = table_count t + 1).
    { rewrite !table_count_cells, Hcells1. simpl length. lia. }
    rewrite !(size_count B) by (assumption || (unfold table_fits; lia)). exact Hcount.
  - unfold iterator_getPtr. cbn [container bucket current_it].
    rewrite Hat1 in *. now repeat split.
Qed.

(** Adding a cell to the bucket its key routes to keeps the array and I1. *)
Lemma add_cell_routed t c s' :
  table_wf B t -> routed hash B t ->
  impl_cells s' ≡ₚ c :: impl_cells (impls_at t (getBucketFromHash B (hash c.1))) ->
  table_wf B (impls_set t (getBucketFromHash B (hash c.1)) s') /\
  routed hash B (impls_set t (getBucketFromHash B (hash c.1)) s') /\
  table_cells (impls_set t (getBucketFromHash B (hash c.1)) s') ≡ₚ c :: table_cells t.
Proof.
  intros Hwf Hrouted Hperm.
  pose proof (getBucketFromHash_range B (hash c.1) HB) as Hb.
  split; [now apply impls_set_wf|split].
  - apply routed_set; [assumption..|]. intros c' Hc'. rewrite Hperm in Hc'.
    apply elem_of_cons in Hc' as [->|Hc']; [reflexivity|]. now apply Hrouted.
  - now apply (table_cells_set t _ s' [c]).
Qed.

Lemma not_in_bucket t k b :
  table_wf B t -> 0 <= b < NUM_BUCKETS B ->
  k ∉ (table_cells t).*1 -> k ∉ (impl_cells (impls_at t b)).*1.
Proof.
  intros Hwf Hb Hk Hin. apply Hk. apply list_elem_of_fmap in Hin as (c & -> & Hc).
  apply list_elem_of_fmap_2. apply elem_of_table_cells; [assumption|]. now exists b.
Qed.

Lemma emplace_adds (this : ptr) t k :
  table_wf B t -> routed hash B t ->
  table_wf B (emplace hash B this t k).1.1 /\
  routed hash B (emplace hash B this t k).1.1 /\
  forall k', k' ∈ (table_cells (emplace hash B this t k).1.1).*1
             <-> k' = k \/ k' ∈ (table_cells t).*1.
Proof.
  intros Hwf Hrouted. unfold emplace.
  pose proof (getBucketFromHash_range B (hash k) HB) as Hb.
  destruct (emplace_hash_spec this t k Hwf) as [Hhit Hmiss].
  destruct (decide (k ∈ (table_cells t).*1)) as [Hk|Hk].
  - destruct Hhit as (cur & c & Hem & _); [now apply key_in_routed_bucket|].
    rewrite Hem. simpl. repeat split; try assumption.
    + intros Hk'. now right.
    + intros [->|Hk']; assumption.
  - destruct Hmiss as (s' & cur & m & Hem & Hperm & _);
      [apply not_in_bucket; assumption|].
    rewrite Hem. simpl.
    destruct (add_cell_routed t (k, m) s' Hwf Hrouted Hperm) as (Hwf' & Hr' & Hcells).
    simpl in *. repeat split; try assumption.
    + rewrite Hcells, fmap_cons. simpl. intros Hk'.
      apply elem_of_cons in Hk'. exact Hk'.
    + rewrite Hcells, fmap_cons. simpl. intros Hk'. apply elem_of_cons. exact Hk'.
Qed.

Lemma insert_adds (this : ptr) t x :
  table_wf B t -> routed hash B t ->
  table_wf B (insert hash B this t x).1 /\
  routed hash B (insert hash B this t x).1 /\
  (x.1 ∈ (table_cells t).*1 -> (insert hash B this t x).1 = t) /\
  (x.1 ∉ (table_cells t).*1 ->
   table_cells (insert hash B this t x).1 ≡ₚ x :: table_cells t).
Proof.
  intros Hwf Hrouted.
  pose proof (getBucketFromHash_range B (hash x.1) HB) as Hb.
  destruct (insert_spec this t x Hwf) as [Hhit Hmiss].
  destruct (decide (x.1 ∈ (table_cells t).*1)) as [Hk|Hk].
  - destruct Hhit as (cur & c & Hins & _); [now apply key_in_routed_bucket|].
    rewrite Hins. simpl. repeat split; try assumption; intros; tauto.
  - destruct Hmiss as (s' & cur & l1 & l2 & Hins & Hs' & Hperm & _);
      [apply not_in_bucket; assumption|].
    rewrite Hins. simpl.
    assert (Hperm' : impl_cells s'
              ≡ₚ x :: impl_cells (impls_at t (getBucketFromHash B (hash x.1)))).
    { rewrite Hs', <- Hperm. symmetry. apply Permutation_middle. }
    destruct (add_cell_routed t x s' Hwf Hrouted Hperm') as (Hwf' & Hr' & Hcells).
    repeat split; try assumption; intros; tauto.
Qed.

Lemma insert_keys (this : ptr) t x :
  table_wf B t -> routed hash B t ->
  forall k', k' ∈ (table_cells (insert hash B this t x).1).*1
             <-> k' = x.1 \/ k' ∈ (table_cells t).*1.
Proof.
  intros Hwf Hrouted k'.
  destruct (insert_adds this t x Hwf Hrouted) as (_ & _ & Hhit & Hmiss).
  destruct (decide (x.1 ∈ (table_cells t).*1)) as [Hk|Hk].
  - rewrite (Hhit Hk). split; [now right|]. now intros [->|Hk'].
  - rewrite (Hmiss Hk), fmap_cons. apply elem_of_cons.
Qed.

Lemma run_inv (this : ptr) (rs : list request) t :
  table_wf B t -> routed hash B t ->
  table_wf B (run hash B this rs t) /\
  routed hash B (run hash B this rs t) /\
  forall k, k ∈ (table_cells (run hash B this rs t)).*1
            <-> k ∈ request_key <$> rs \/ k ∈ (table_cells t).*1.
Proof.
  revert t. induction rs as [|r rs IH]; intros t Hwf Hrouted.
  - simpl. repeat split; try assumption.
    + now right.
    + intros [Hk|Hk]; [now apply elem_of_nil in Hk|exact Hk].
  - assert (Hstep : table_wf B (apply_request hash B this t r) /\
                    routed hash B (apply_request hash B this t r) /\
                    forall k, k ∈ (table_cells (apply_request hash B this t r)).*1
                              <-> k = request_key r \/ k ∈ (table_cells t).*1).
    { destruct r as [x|x]; simpl.
      - destruct (insert_adds this t x Hwf Hrouted) as (? & ? & _).
        repeat split; try assumption; now apply insert_keys.
      - now apply emplace_adds. }
    destruct Hstep as (Hwf' & Hr' & Hkeys).
    destruct (IH _ Hwf' Hr') as (Hwf'' & Hr'' & Hkeys'').
    unfold run in *. cbn [foldl]. rewrite fmap_cons. repeat split; try assumption.
    + intros Hk. apply Hkeys'' in Hk as [Hk|Hk].
      * left. now right.
      * apply Hkeys in Hk as [->|Hk]; [left; now left|now right].
    + intros Hk. apply Hkeys''.
      destruct Hk as [Hk|Hk].
      * apply elem_of_cons in Hk as [->|Hk]; [right; apply Hkeys; now left|now left].
      * right. apply Hkeys. now right.
Qed.

Lemma find_spec (this : ptr) t k :
  table_wf B t -> routed hash B t ->
  (k ∈ (table_cells t).*1 ->
   exists cur c,
     find hash B this t k
     = {| container := this; bucket := getBucketFromHash B (hash k); current_it := cur |} /\
     impl_getPtr (impls_at t (getBucketFromHash B (hash k))) cur = Some c /\
     c.1 = k /\ c ∈ table_cells t /\
     iterator_eqb (find hash B this t k) (end_ B this t) = false) /\
  (k ∉ (table_cells t).*1 -> find hash B this t k = end_ B this t).
Proof.
  intros Hwf Hrouted. pose proof (getBucketFromHash_range B (hash k) HB) as Hb.
  split; intros Hk; unfold find.
  - apply key_in_routed_bucket in Hk; [|assumption..].
    destruct (impl_find_hit _ _ HLookup _ _ Hk) as (Hne & c & Hptr & Hc & Hin).
    rewrite Hne. simpl.
    exists (impl_find (impls_at t (getBucketFromHash B (hash k))) k (hash k)), c.
    repeat split; try assumption.
    + apply elem_of_table_cells; [assumption|]. now exists (getBucketFromHash B (hash k)).
    + unfold iterator_eqb, end_. cbn [bucket current_it].
      destruct (Z.eqb_spec (getBucketFromHash B (hash k)) (MAX_BUCKET B)) as [Heq|Hneq];
        [|reflexivity].
      simpl. rewrite <- Heq. exact Hne.
  - rewrite (impl_find_miss _ _ HLookup); [reflexivity|].
    apply not_in_bucket; assumption.
Qed.

(** C8. After calls of [insert] and [emplace], [find(k)] for a key [k] of
    one of the calls is a cursor in the bucket the routing function gives
    for the hash of [k], at a cell with key [k], and differs from [end()];
    for any other key [find] returns [end()]. *)
Theorem find_after_insert (this : ptr) (rs : list request) k :
  (k ∈ request_key <$> rs ->
   bucket (find hash B this (run hash B this rs (table_new B)) k)
   = getBucketFromHash B (hash k) /\
   (exists c,
      iterator_getPtr (fun _ => run hash B this rs (table_new B))
        (find hash B this (run hash B this rs (table_new B)) k) = Some c /\
      c.1 = k) /\
   iterator_eqb (find hash B this (run hash B this rs (table_new B)) k)
     (end_ B this (run hash B this rs (table_new B))) = false) /\
  (k ∉ request_key <$> rs ->
   find hash B this (run hash B this rs (table_new B)) k
   = end_ B this (run hash B this rs (table_new B))).
Proof.
  destruct (run_inv this rs (table_new B) (table_new_wf B) table_new_routed)
    as (Hwf & Hrouted & Hkeys).
  destruct (find_spec this (run hash B this rs (table_new B)) k Hwf Hrouted)
    as [Hhit Hmiss].
  split; intros Hk.
  - destruct Hhit as (cur & c & Hfind & Hptr & Hc & _ & Hne);
      [apply Hkeys; now left|].
    split; [now rewrite Hfind|split; [|exact Hne]].
    exists c. split; [|exact Hc]. rewrite Hfind. exact Hptr.
  - apply Hmiss. intros Hin. apply Hkeys in Hin as [Hin|Hin]; [now apply Hk|].
    rewrite table_new_cells in Hin. now apply elem_of_nil in Hin.
Qed.

(** *** The converting constructor *)

Lemma insertCell_adds (getHash : Key * Mapped -> Z) t c :
  table_wf B t -> routed hash B t ->
  c.1 <> zero_key -> c.1 ∉ (table_cells t).*1 -> getHash c = hash c.1 ->
  table_wf B (insertCell B getHash t c) /\
  routed hash B (insertCell B getHash t c) /\
  table_cells (insertCell B getHash t c) ≡ₚ c :: table_cells t.
Proof.
  intros Hwf Hrouted Hnz Hk Hhash. unfold insertCell. rewrite Hhash.
  pose proof (getBucketFromHash_range B (hash c.1) HB) as Hb.
  apply add_cell_routed; [assumption..|].
  apply (impl_insertUniqueNonZero_cells _ _ HLookup); [assumption|].
  apply not_in_bucket; assumption.
Qed.

Lemma fold_insertCell_adds (getHash : Key * Mapped -> Z) (l : list (Key * Mapped)) t :
  table_wf B t -> routed hash B t ->
  NoDup l.*1 ->
  (forall c, c ∈ l -> c.1 ∉ (table_cells t).*1) ->
  (forall c, c ∈ l -> c.1 <> zero_key) ->
  (forall c, c ∈ l -> getHash c = hash c.1) ->
  table_wf B (foldl (insertCell B getHash) t l) /\
  routed hash B (foldl (insertCell B getHash) t l) /\
  table_cells (foldl (insertCell B getHash) t l) ≡ₚ table_cells t ++ l.
Proof.
  revert t. induction l as [|c l IH]; intros t Hwf Hrouted Hnd Hfresh Hnz Hhash.
  - simpl. rewrite app_nil_r. now repeat split.
  - rewrite fmap_cons in Hnd. apply NoDup_cons in Hnd as [Hc Hnd].
    destruct (insertCell_adds getHash t c Hwf Hrouted) as (Hwf' & Hr' & Hcells).
    { apply Hnz. now left. }
    { apply Hfresh. now left. }
    { apply Hhash. now left. }
    cbn [foldl].
    destruct (IH (insertCell B getHash t c) Hwf' Hr' Hnd) as (Hwf'' & Hr'' & Hcells'').
    + intros c' Hc'. rewrite Hcells, fmap_cons. intros Hin.
      apply elem_of_cons in Hin as [Heq|Hin].
      * apply Hc. rewrite <- Heq. now apply list_elem_of_fmap_2.
      * apply (Hfresh c'); [now right|exact Hin].
    + intros c' Hc'. apply Hnz. now right.
    + intros c' Hc'. apply Hhash. now right.
    + repeat split; try assumption.
      rewrite Hcells'', Hcells. apply (Permutation_middle (table_cells t) l c).
Qed.

Lemma TwoLevelHashTable_of_inv (this : ptr) (src : list (Key * Mapped))
    (getHash : Key * Mapped -> Z) :
  source_ok hash zero_key src getHash ->
  table_wf B (TwoLevelHashTable_of hash zero_key B this src getHash) /\
  routed hash B (TwoLevelHashTable_of hash zero_key B this src getHash) /\
  table_cells (TwoLevelHashTable_of hash zero_key B this src getHash) ≡ₚ src.
Proof.
  intros (Hnd & Htail & Hhash). unfold TwoLevelHashTable_of.
  destruct src as [|z rest].
  - simpl. rewrite table_new_cells.
    split; [apply table_new_wf|split; [apply table_new_routed|reflexivity]].
  - destruct (isZero zero_key z) eqn:Hz.
    + destruct (insert_adds this (table_new B) z (table_new_wf B) table_new_routed)
        as (Hwf0 & Hr0 & _ & Hcells0).
      rewrite table_new_cells in Hcells0.
      specialize (Hcells0 (not_elem_of_nil _)).
      rewrite fmap_cons in Hnd. apply NoDup_cons in Hnd as [Hzr Hnd].
      destruct (fold_insertCell_adds getHash rest _ Hwf0 Hr0 Hnd) as (Hwf & Hr & Hcells).
      * intros c Hc. rewrite Hcells0. simpl. intros Hin.
        apply list_elem_of_singleton in Hin. apply Hzr. rewrite <- Hin.
        now apply list_elem_of_fmap_2.
      * exact Htail.
      * intros c Hc. apply Hhash. now right.
      * repeat split; try assumption. now rewrite Hcells, Hcells0.
    + destruct (fold_insertCell_adds getHash (z :: rest) _ (table_new_wf B)
                  table_new_routed Hnd) as (Hwf & Hr & Hcells).
      * intros c _. rewrite table_new_cells. apply not_elem_of_nil.
      * intros c Hc. apply elem_of_cons in Hc as [->|Hc]; [|now apply Htail].
        unfold isZero in Hz. now apply bool_decide_eq_false in Hz.
      * exact Hhash.
      * repeat split; try assumption. now rewrite Hcells, table_new_cells.
Qed.

(** C5. Converting a source table of [N] cells with distinct keys gives an
    object with [size() == N] in which [find] reaches every cell of the
    source, in the bucket the routing function gives for its hash; the cells
    after a leading zero cell are inserted one by one with their own hash
    through [insertUniqueNonZero]. *)
Theorem TwoLevelHashTable_of_source (this : ptr) (src : list (Key * Mapped))
    (getHash : Key * Mapped -> Z) :
  source_ok hash zero_key src getHash ->
  Z.of_nat (length src) < SizeT.modulus ->
  size B (TwoLevelHashTable_of hash zero_key B this src getHash) = Z.of_nat (length src) /\
  (forall c, c ∈ src ->
     bucket (find hash B this (TwoLevelHashTable_of hash zero_key B this src getHash) c.1)
     = getBucketFromHash B (getHash c) /\
     iterator_getPtr (fun _ => TwoLevelHashTable_of hash zero_key B this src getHash)
       (find hash B this (TwoLevelHashTable_of hash zero_key B this src getHash) c.1)
     = Some c /\
     iterator_eqb
       (find hash B this (TwoLevelHashTable_of hash zero_key B this src getHash) c.1)
       (end_ B this (TwoLevelHashTable_of hash zero_key B this src getHash)) = false /\
     c ∈ impl_cells
           (impls_at (TwoLevelHashTable_of hash zero_key B this src getHash)
              (getBucketFromHash B (getHash c)))) /\
  (forall z rest, src = z :: rest -> isZero zero_key z = true ->
     TwoLevelHashTable_of hash zero_key B this src getHash
     = foldl (insertCell B getHash) (insert hash B this (table_new B) z).1 rest) /\
  ((forall z rest, src = z :: rest -> isZero zero_key z = false) ->
     TwoLevelHashTable_of hash zero_key B this src getHash
     = foldl (insertCell B getHash) (table_new B) src) /\
  (forall t c,
     insertCell B getHash t c
     = impls_set t (getBucketFromHash B (getHash c))
         (impl_insertUniqueNonZero (impls_at t (getBucketFromHash B (getHash c))) c
            (getHash c))).
Proof.
  intros Hsrc Hfit.
  destruct (TwoLevelHashTable_of_inv this src getHash Hsrc) as (Hwf & Hrouted & Hcells).
  destruct Hsrc as (Hnd & Htail & Hhash).
  set (t := TwoLevelHashTable_of hash zero_key B this src getHash) in *.
  split; [|split; [|split; [|split]]].
  - rewrite (size_count B) by
      (assumption || (unfold table_fits; rewrite table_count_cells, Hcells; exact Hfit)).
    now rewrite table_count_cells, Hcells.
  - intros c Hc. rewrite (Hhash c Hc).
    destruct (find_spec this t c.1 Hwf Hrouted) as [Hhit _].
    destruct Hhit as (cur & c' & Hfind & Hptr & Hkey & Hin & Hne).
    { apply list_elem_of_fmap_2. now rewrite Hcells. }
    assert (Hcc : c' = c).
    { apply (NoDup_fst_eq src); [assumption|now rewrite <- Hcells|assumption..]. }
    subst c'. rewrite Hfind in *. cbn [bucket].
    split; [reflexivity|split; [|split; [exact Hne|]]].
    + unfold iterator_getPtr. cbn [container bucket current_it]. exact Hptr.
    + rewrite <- Hcells in Hc. apply elem_of_table_cells in Hc as (i & Hi & Hc);
        [|assumption].
      now rewrite (Hrouted i c Hi Hc).
  - intros z rest -> Hz. unfold t, TwoLevelHashTable_of. now rewrite Hz.
  - intros Hnz. unfold t, TwoLevelHashTable_of. destruct src as [|z rest]; [reflexivity|].
    now rewrite (Hnz z rest eq_refl).
  - reflexivity.
Qed.

(** *** The zero cell after the conversion *)

Hypothesis HIter : ImplIterSpec.

Lemma routed_cell_bucket t c :
  table_wf B t -> routed hash B t -> c ∈ table_cells t ->
  c ∈ impl_cells (impls_at t (getBucketFromHash B (hash c.1))).
Proof.
  intros Hwf Hrouted Hc.
  apply elem_of_table_cells in Hc as (i & Hi & Hc); [|assumption].
  now rewrite (Hrouted i c Hi Hc).
Qed.

Lemma lowest_cell_first t z (rest : list (Key * Mapped)) :
  table_wf B t -> routed hash B t -> table_cells t ≡ₚ z :: rest ->
  (forall c, c ∈ rest ->
     getBucketFromHash B (hash z.1) < getBucketFromHash B (hash c.1)) ->
  first_cell_at t z (getBucketFromHash B (hash z.1)).
Proof.
  intros Hwf Hrouted Hcells Hlt.
  pose proof (getBucketFromHash_range B (hash z.1) HB) as Hb.
  assert (Hbucket : forall i c, 0 <= i <= getBucketFromHash B (hash z.1) ->
            c ∈ impl_cells (impls_at t i) ->
            c = z /\ i = getBucketFromHash B (hash z.1)).
  { intros i c Hi Hc.
    assert (Hin : c ∈ table_cells t).
    { apply elem_of_table_cells; [assumption|]. exists i. split; [lia|exact Hc]. }
    assert (Hr : getBucketFromHash B (hash c.1) = i) by (apply Hrouted; [lia|exact Hc]).
    rewrite Hcells in Hin. apply elem_of_cons in Hin as [->|Hin]; [now split|].
    specialize (Hlt c Hin). lia. }
  split.
  - intros i Hi. destruct (impl_cells (impls_at t i)) as [|c l] eqn:Hl; [reflexivity|].
    destruct (Hbucket i c) as [_ Heq]; [lia|rewrite Hl; now left|lia].
  - assert (Hz : z ∈ impl_cells (impls_at t (getBucketFromHash B (hash z.1)))).
    { apply routed_cell_bucket; try assumption. rewrite Hcells. now left. }
    destruct (impl_cells (impls_at t (getBucketFromHash B (hash z.1))))
      as [|c l] eqn:Hl; [now apply elem_of_nil in Hz|].
    destruct (Hbucket (getBucketFromHash B (hash z.1)) c) as [-> _];
      [lia|rewrite Hl; now left|]. now exists l.
Qed.

(** C6, as amended.  When the first cell of the source is the zero cell,
    the constructor hands it to [insert], which puts it into the bucket the
    hash of the zero key routes to, and it is in that bucket of the
    converted object.  When every other cell of the source routes to a
    bucket with a higher index, the cursor of the converted object starts
    in that bucket and yields the zero cell first. *)
Theorem zero_cell_routed_first_when_others_higher (mem : ptr -> TwoLevelHashTable)
    (this : ptr) (z : Key * Mapped) (rest : list (Key * Mapped))
    (getHash : Key * Mapped -> Z) :
  source_ok hash zero_key (z :: rest) getHash ->
  isZero zero_key z = true ->
  mem this = TwoLevelHashTable_of hash zero_key B this (z :: rest) getHash ->
  mem this
  = foldl (insertCell B getHash) (insert hash B this (table_new B) z).1 rest /\
  (exists t1 it,
     insert hash B this (table_new B) z = (t1, (it, true)) /\
     bucket it = getBucketFromHash B (hash z.1) /\
     iterator_getPtr (fun _ => t1) it = Some z) /\
  z ∈ impl_cells (impls_at (mem this) (getBucketFromHash B (hash z.1))) /\
  ((forall c, c ∈ rest ->
      getBucketFromHash B (hash z.1) < getBucketFromHash B (hash c.1)) ->
   bucket (begin B this (mem this)) = getBucketFromHash B (hash z.1) /\
   iterator_getPtr mem (begin B this (mem this)) = Some z /\
   exists l,
     table_cells (mem this) = z :: l /\
     forall fuel, (length (z :: rest) < fuel)%nat ->
       traverse B fuel mem this = Some (z :: l)).
Proof.
  intros Hsrc Hz Hmem.
  pose proof (getBucketFromHash_range B (hash z.1) HB) as Hb.
  destruct (TwoLevelHashTable_of_inv this (z :: rest) getHash Hsrc)
    as (Hwf & Hrouted & Hcells).
  rewrite <- Hmem in Hwf, Hrouted, Hcells.
  split; [|split; [|split]].
  - rewrite Hmem. unfold TwoLevelHashTable_of. now rewrite Hz.
  - destruct (insert_spec this (table_new B) z (table_new_wf B)) as [_ Hmiss].
    destruct Hmiss as (s' & cur & l1 & l2 & Hins & _ & _ & Hptr).
    { rewrite impls_at_new, (impl_new_cells _ _ HLookup). apply not_elem_of_nil. }
    eexists _, _. split; [exact Hins|]. split; [reflexivity|].
    unfold iterator_getPtr. cbn [container bucket current_it].
    rewrite (impls_at_set_eq B) by (apply table_new_wf || assumption). exact Hptr.
  - apply routed_cell_bucket; try assumption. rewrite Hcells. now left.
  - intros Hlt.
    pose proof (lowest_cell_first (mem this) z rest Hwf Hrouted Hcells Hlt) as Hfirst.
    split; [|split].
    + now apply (first_cell_begin_bucket B HB HSize this (mem this) z).
    + now apply (first_cell_begin B HB HSize HIter mem this z
                   (getBucketFromHash B (hash z.1))).
    + destruct (first_cell_table_cells B (mem this) z _ Hwf Hb Hfirst) as (l & Hl).
      exists l. split; [exact Hl|]. intros fuel Hfuel.
      rewrite (traverse_all B HB HSize HIter mem this Hwf) by now rewrite Hcells.
      f_equal. exact Hl.
Qed.

End Lookup.

(** ** The reference table meets the contract *)

Import Reference.

Lemma byte_eqb_eq (x y : byte) : Byte.eqb x y = true <-> x = y.
Proof. split; [apply Byte.byte_dec_bl|apply Byte.byte_dec_lb]. Qed.

Lemma index_of_hit (k : byte) (s : RefTable) :
  k ∈ s.*1 ->
  (index_of k s < length s)%nat /\
  exists c, s !! index_of k s = Some c /\ c.1 = k /\ c ∈ s.
Proof.
  induction s as [|c s IH]; intros Hk.
  - now apply elem_of_nil in Hk.
  - simpl. destruct (Byte.eqb c.1 k) eqn:E.
    + apply byte_eqb_eq in E. split; [lia|]. exists c. repeat split; [exact E|now left].
    + rewrite fmap_cons in Hk. apply elem_of_cons in Hk as [Hk|Hk].
      * symmetry in Hk. apply byte_eqb_eq in Hk. congruence.
      * destruct (IH Hk) as (Hlt & c' & Hc' & Hkey & Hin). split; [lia|].
        exists c'. repeat split; [exact Hc'|exact Hkey|now right].
Qed.

Lemma index_of_miss (k : byte) (s : RefTable) :
  k ∉ s.*1 -> index_of k s = length s.
Proof.
  induction s as [|c s IH]; intros Hk; [reflexivity|]. simpl.
  rewrite fmap_cons in Hk. apply not_elem_of_cons in Hk as [Hne Hk].
  destruct (Byte.eqb c.1 k) eqn:E.
  - apply byte_eqb_eq in E. congruence.
  - now rewrite IH.
Qed.

Lemma ref_size_spec : ImplSizeSpec (ImplTable0 := ref_impl).
Proof.
  split; intros s; simpl; [reflexivity|].
  rewrite Nat.eqb_eq. lia.
Qed.

Lemma ref_walk (pre l : RefTable) : impl_walk (pre ++ l) (length pre) l.
Proof.
  revert pre. induction l as [|c l IH]; intros pre.
  - apply walk_end. simpl. rewrite app_nil_r. apply Nat.eqb_refl.
  - apply (walk_step _ _ c l).
    + simpl. apply Nat.eqb_neq. rewrite length_app. simpl. lia.
    + simpl. rewrite lookup_app_r by lia. now rewrite Nat.sub_diag.
    + specialize (IH (pre ++ [c])). rewrite <- app_assoc, length_app in IH.
      simpl in IH. replace (length pre + 1)%nat with (S (length pre)) in IH by lia.
      exact IH.
Qed.

Lemma ref_iter_spec : ImplIterSpec (ImplTable0 := ref_impl).
Proof.
  split.
  - intros it. simpl. apply Nat.eqb_refl.
  - intros s. apply (ref_walk [] s).
Qed.

Lemma ref_lookup_spec (hash : byte -> Z) : ImplLookupSpec (ImplTable0 := ref_impl) hash zero.
Proof.
  split.
  - reflexivity.
  - intros s k Hk. simpl. destruct (index_of_hit k s Hk) as (Hlt & c & Hc).
    split; [apply Nat.eqb_neq; lia|]. now exists c.
  - intros s k Hk. simpl. rewrite (index_of_miss k s Hk). apply Nat.eqb_refl.
  - intros s k Hk. simpl. unfold ref_emplace. rewrite (index_of_miss k s Hk).
    rewrite Nat.ltb_irrefl. destruct (Byte.eqb k zero).
    + exists ((k, x00) :: s), O, x00. now repeat split.
    + exists (s ++ [(k, x00)]), (length s), x00. repeat split.
      * symmetry. apply Permutation_cons_append.
      * rewrite lookup_app_r by lia. now rewrite Nat.sub_diag.
  - intros s k Hk. simpl. unfold ref_emplace.
    destruct (index_of_hit k s Hk) as (Hlt & c & Hc & Hkey & Hin).
    apply Nat.ltb_lt in Hlt. rewrite Hlt. exists (index_of k s), c. now repeat split.
  - intros s it k m v Hptr. simpl in *. unfold ref_setMapped, RefTable in *.
    exists (take it s), (drop (S it) s). rewrite Hptr. simpl. repeat split.
    + symmetry. now apply take_drop_middle.
    + apply insert_take_drop. now apply lookup_lt_Some in Hptr.
    + apply list_lookup_insert_eq. now apply lookup_lt_Some in Hptr.
  - intros s c _ _. simpl. symmetry. apply Permutation_cons_append.
Qed.

Lemma decode_encode (mark stop : byte) (s : RefTable) (rest : list byte) :
  Byte.eqb mark stop = false ->
  decode mark stop (encode mark stop s ++ rest) = Some (s, rest).
Proof.
  intros Hne. unfold encode. induction s as [|c s IH]; simpl.
  - now rewrite (Byte.byte_dec_lb eq_refl).
  - rewrite Hne, (Byte.byte_dec_lb eq_refl).
    rewrite <- app_assoc in IH. rewrite <- !app_assoc. simpl in *. rewrite IH.
    now destruct c.
Qed.

Lemma ref_serial_spec : ImplSerialSpec (ImplTable0 := ref_impl).
Proof.
  split; intros s rest; exists s; simpl; unfold ref_read;
    now rewrite decode_encode.
Qed.

(** ** Equality of cursors *)

(** C10. [operator==] of [iterator] and of [const_iterator] compares the
    bucket index and the inner iterator only: its result does not depend on
    the containers the two cursors point to.  With the reference table,
    whose inner iterators are positions, the [end()] cursors of two
    different objects compare equal, and so do their [begin()] cursors,
    which are at the same bucket and position but at different cells. *)
Theorem iterator_eqb_ignores_container :
  (forall (Key Mapped Impl It : Type) (I : ImplTable Key Mapped Impl It)
          (c1 c2 c1' c2' : ptr) (b b' : Z) (i i' : It),
     iterator_eqb {| container := c1; bucket := b; current_it := i |}
                  {| container := c2; bucket := b'; current_it := i' |}
     = iterator_eqb {| container := c1'; bucket := b; current_it := i |}
                    {| container := c2'; bucket := b'; current_it := i' |} /\
     iterator_eqb {| container := c1; bucket := b; current_it := i |}
                  {| container := c2; bucket := b'; current_it := i' |}
     = (b =? b') && impl_it_eqb i i' /\
     const_iterator_eqb {| c_container := c1; c_bucket := b; c_current_it := i |}
                        {| c_container := c2; c_bucket := b'; c_current_it := i' |}
     = const_iterator_eqb {| c_container := c1'; c_bucket := b; c_current_it := i |}
                          {| c_container := c2'; c_bucket := b'; c_current_it := i' |} /\
     const_iterator_eqb {| c_container := c1; c_bucket := b; c_current_it := i |}
                        {| c_container := c2; c_bucket := b'; c_current_it := i' |}
     = (b =? b') && impl_it_eqb i i') /\
  (sample <> other /\
   iterator_eqb (end_ 8 1%nat sample) (end_ 8 2%nat other) = true /\
   const_iterator_eqb (const_iterator_of (end_ 8 1%nat sample))
                      (const_iterator_of (end_ 8 2%nat other)) = true /\
   iterator_eqb (begin 8 1%nat sample) (begin 8 2%nat other) = true /\
   iterator_getPtr (fun _ => sample) (begin 8 1%nat sample) = Some (x01, x0a) /\
   iterator_getPtr (fun _ => other) (begin 8 2%nat other) = Some (x01, x63)).
Proof.
  split.
  - intros. repeat split.
  - split; [discriminate|]. repeat split.
Qed.

(** ** The properties at concrete objects of the reference table *)

Lemma valid_bits_8 : valid_bits 8.
Proof. unfold valid_bits. lia. Qed.

Lemma valid_bits_2 : valid_bits 2.
Proof. unfold valid_bits. lia. Qed.

Lemma source_5_ok : source_ok ref_hash zero source_5 ref_getHash.
Proof.
  split; [|split].
  - apply (bool_decide_unpack _). vm_compute. exact I.
  - intros c Hc. apply list_elem_of_singleton in Hc. subst c. discriminate.
  - reflexivity.
Qed.

Lemma source_255_ok : source_ok ref_hash zero source_255 ref_getHash.
Proof.
  split; [|split].
  - apply (bool_decide_unpack _). vm_compute. exact I.
  - intros c Hc. apply list_elem_of_singleton in Hc. subst c. discriminate.
  - reflexivity.
Qed.

(** The round trip of the four-bucket object [small], with a byte left in
    the buffer. *)
Lemma write_read_round_trip_witness :
  (exists t',
     read 2 (table_new 2) (write 2 small [] ++ [x2a]) = (t', Ok [x2a]) /\
     same_cells (impls t') (impls small) /\
     table_cells t' ≡ₚ table_cells small /\
     size 2 t' = size 2 small) /\
  (exists t',
     readText 2 (table_new 2) (writeText 2 small [] ++ [x2a]) = (t', Ok [x2a]) /\
     same_cells (impls t') (impls small) /\
     table_cells t' ≡ₚ table_cells small /\
     size 2 t' = size 2 small).
Proof.
  apply (write_read_round_trip 2 ref_serial_spec small [x2a] ref_size_spec valid_bits_2).
  reflexivity.
Defined.

(** The text form of [small], and a text in which the comma after the first
    bucket is missing. *)
Lemma writeText_commas_readText_failure_witness :
  writeText 2 small []
  = [x28; x01; x02; x3b; comma; x3b; comma; x28; x03; x04; x3b; comma; x3b] /\
  Z.of_nat (length (writeText 2 small [])) = 10 + 3 /\
  readText 2 (table_new 2) [x28; x01; x02; x3b; x3b; comma; x3b; comma; x3b]
  = ({| impls := [[(x01, x02)]; []; []; []] |}, Throw ParseFailure).
Proof.
  destruct (writeText_commas_readText_failure 2 small valid_bits_2 eq_refl)
    as (Hwrite & Hlength & _).
  destruct (writeText_commas_readText_failure 2 (table_new 2) valid_bits_2 eq_refl)
    as (_ & _ & Hread).
  split; [rewrite Hwrite; reflexivity|split; [rewrite Hlength; reflexivity|]].
  apply (Hread _ 1 _ [x3b; comma; x3b; comma; x3b]).
  - split; reflexivity.
  - reflexivity.
  - discriminate.
Defined.

(** The traversal of [sample], whose first two buckets are empty, and of a
    new object. *)
Lemma traversal_visits_all_in_bucket_order_witness :
  traverse 8 4 (fun _ => sample) O = Some [(x01, x0a); (x02, x0b); (x03, x0c)] /\
  begin 8 O sample = {| container := O; bucket := 2; current_it := O |} /\
  (empty 8 (table_new 8) = true ->
   begin 8 O (table_new 8) = end_ 8 O (table_new (Impl := RefTable) 8)).
Proof.
  destruct (traversal_visits_all_in_bucket_order 8 valid_bits_8 ref_size_spec
              ref_iter_spec (fun _ => sample) O eq_refl) as (Htr & _ & Hbegin & _ & _).
  destruct (traversal_visits_all_in_bucket_order 8 valid_bits_8 ref_size_spec
              ref_iter_spec (fun _ => table_new 8) O eq_refl) as (_ & _ & _ & Hempty & _).
  split; [|split; [|exact Hempty]].
  - apply (Htr 4%nat). vm_compute. lia.
  - apply (Hbegin 2); [|reflexivity]. split; [split; discriminate|split].
    + intros i Hi. assert (Hcases : i = 0 \/ i = 1) by lia.
      destruct Hcases as [-> | ->]; reflexivity.
    + reflexivity.
Defined.

(** The conversion of [source_5]. *)
Lemma TwoLevelHashTable_of_source_witness :
  size 8 (converted source_5) = 2 /\
  bucket (find ref_hash 8 O (converted source_5) x05) = 6 /\
  iterator_getPtr (fun _ => converted source_5) (find ref_hash 8 O (converted source_5) x05)
  = Some (x05, x0b) /\
  converted source_5
  = foldl (insertCell 8 ref_getHash) (insert ref_hash 8 O (table_new 8) (x00, x0a)).1
      [(x05, x0b)].
Proof.
  destruct (TwoLevelHashTable_of_source ref_hash zero 8 valid_bits_8 ref_size_spec
              (ref_lookup_spec ref_hash) O source_5 ref_getHash source_5_ok eq_refl)
    as (Hsize & Hfind & Hzero & _).
  destruct (Hfind (x05, x0b)) as (Hbucket & Hptr & _); [right; left|].
  split; [exact Hsize|split; [exact Hbucket|split; [exact Hptr|]]].
  now apply (Hzero (x00, x0a) [(x05, x0b)]).
Defined.

(** The zero cell of [source_5] is in bucket 1, its other cell in bucket 6. *)
Lemma zero_cell_routed_first_when_others_higher_witness :
  converted source_5
  = foldl (insertCell 8 ref_getHash) (insert ref_hash 8 O (table_new 8) (x00, x0a)).1
      [(x05, x0b)] /\
  (exists t1 it,
     insert ref_hash 8 O (table_new 8) (x00, x0a) = (t1, (it, true)) /\
     bucket it = 1 /\
     iterator_getPtr (fun _ => t1) it = Some (x00, x0a)) /\
  (x00, x0a) ∈ impl_cells (impls_at (converted source_5) 1) /\
  bucket (begin 8 O (converted source_5)) = 1 /\
  iterator_getPtr (fun _ => converted source_5) (begin 8 O (converted source_5))
  = Some (x00, x0a) /\
  exists l,
    table_cells (converted source_5) = (x00, x0a) :: l /\
    forall fuel, (length source_5 < fuel)%nat ->
      traverse 8 fuel (fun _ => converted source_5) O = Some ((x00, x0a) :: l).
Proof.
  assert (Hz : isZero zero (x00, x0a) = true) by reflexivity.
  destruct (zero_cell_routed_first_when_others_higher ref_hash zero 8 valid_bits_8
              ref_size_spec (ref_lookup_spec ref_hash) ref_iter_spec
              (fun _ => converted source_5) O (x00, x0a) [(x05, x0b)] ref_getHash
              source_5_ok Hz eq_refl)
    as (Hfold & Hinsert & Hin & Hfirst).
  split; [exact Hfold|split; [exact Hinsert|split; [exact Hin|]]].
  apply Hfirst. intros c Hc. apply list_elem_of_singleton in Hc. subst c.
  vm_compute. reflexivity.
Defined.

(** C6, the claim as stated fails: the source [source_255] starts with the
    zero cell, which the conversion routes to bucket 1, while its other key
    routes to bucket 0; the cursor of the converted object yields that other
    cell first and the zero cell after it. *)
Lemma zero_cell_first_counterexample :
  source_ok ref_hash zero source_255 ref_getHash /\
  head source_255 = Some (x00, x0a) /\
  isZero zero (x00, x0a) = true /\
  getBucketFromHash 8 (ref_hash x00) = 1 /\
  getBucketFromHash 8 (ref_hash xff) = 0 /\
  iterator_getPtr (fun _ => converted source_255) (begin 8 O (converted source_255))
  = Some (xff, x0b) /\
  traverse 8 3 (fun _ => converted source_255) O = Some [(xff, x0b); (x00, x0a)].
Proof.
  split; [exact source_255_ok|]. repeat split.
Qed.

(** The key 7, which [sample] does not have, inserted twice. *)
Lemma insert_twice_witness :
  exists t1 it1 it2,
    insert ref_hash 8 O sample (x07, x01) = (t1, (it1, true)) /\
    insert ref_hash 8 O t1 (x07, x02) = (t1, (it2, false)) /\
    size 8 t1 = size 8 sample + 1 /\
    table_cells t1 ≡ₚ (x07, x01) :: table_cells sample /\
    bucket it1 = getBucketFromHash 8 (ref_hash x07) /\
    bucket it2 = getBucketFromHash 8 (ref_hash x07) /\
    iterator_getPtr (fun _ => t1) it1 = Some (x07, x01) /\
    iterator_getPtr (fun _ => t1) it2 = Some (x07, x01).
Proof.
  apply (insert_twice ref_hash zero 8 valid_bits_8 ref_size_spec (ref_lookup_spec ref_hash)).
  - reflexivity.
  - vm_compute. reflexivity.
  - apply (bool_decide_unpack _). vm_compute. exact I.
Defined.

(** After an [insert] of key 1 and an [emplace] of key 5: [find] of the keys
    5 and 9. *)
Lemma find_after_insert_witness :
  bucket (find ref_hash 8 O
            (run ref_hash 8 O [Insert (x01, x0a); Emplace x05] (table_new 8)) x05)
  = getBucketFromHash 8 (ref_hash x05) /\
  find ref_hash 8 O (run ref_hash 8 O [Insert (x01, x0a); Emplace x05] (table_new 8)) x09
  = end_ 8 O (run ref_hash 8 O [Insert (x01, x0a); Emplace x05] (table_new 8)).
Proof.
  destruct (find_after_insert ref_hash zero 8 valid_bits_8 (ref_lookup_spec ref_hash)
              O [Insert (x01, x0a); Emplace x05] x05) as [Hin _].
  destruct (find_after_insert ref_hash zero 8 valid_bits_8 (ref_lookup_spec ref_hash)
              O [Insert (x01, x0a); Emplace x05] x09) as [_ Hout].
  split.
  - apply Hin. right. left.
  - apply Hout. apply (bool_decide_unpack _). vm_compute. exact I.
Defined.

(** [empty()] and [size()] of [sample]. *)
Lemma empty_iff_size_zero_witness :
  (empty 8 sample = true <-> size 8 sample = 0) /\
  size 8 sample = sum_Z (impl_size <$> impls sample) /\
  (empty 8 sample = true <-> forall s, s ∈ impls sample -> impl_empty s = true).
Proof.
  apply (empty_iff_size_zero 8 sample ref_size_spec); reflexivity.
Defined.

(** * Further properties of the header *)

(** ** What the calls touch, and where cursors point *)

Section Frame.

Context {Key Mapped Impl It : Type} `{!ImplTable Key Mapped Impl It}.

Variable hash : Key -> Z.

Variable B : Z.

Hypothesis HB : valid_bits B.

Implicit Types (t : @TwoLevelHashTable Impl) (s : Impl) (i j b : Z).

Lemma emplace_hash_frame (this : ptr) t (x : Key) (h : Z) j :
  0 <= j -> j <> getBucketFromHash B h ->
  impls_at (emplace_hash B this t x h).1.1 j = impls_at t j /\
  length (impls (emplace_hash B this t x h).1.1) = length (impls t).
Proof.
  intros Hj Hne. pose proof (getBucketFromHash_range B h HB) as Hb.
  unfold emplace_hash.
  destruct (impl_emplace (impls_at t (getBucketFromHash B h)) x h) as [[s cur] ins].
  cbn [fst]. split; [apply impls_at_set_ne; lia|].
  unfold impls_set. cbn [impls]. apply length_insert.
Qed.

Lemma emplace_hash_bucket (this : ptr) t (x : Key) (h : Z) :
  bucket (emplace_hash B this t x h).1.2 = getBucketFromHash B h.
Proof.
  unfold emplace_hash.
  now destruct (impl_emplace (impls_at t (getBucketFromHash B h)) x h) as [[s cur] ins].
Qed.

Lemma insert_frame (this : ptr) t (x : Key * Mapped) j :
  0 <= j -> j <> getBucketFromHash B (hash x.1) ->
  impls_at (insert hash B this t x).1 j = impls_at t j /\
  length (impls (insert hash B this t x).1) = length (impls t).
Proof.
  intros Hj Hne. pose proof (getBucketFromHash_range B (hash x.1) HB) as Hb.
  destruct (emplace_hash_frame this t x.1 (hash x.1) j Hj Hne) as [Hat Hlen].
  pose proof (emplace_hash_bucket this t x.1 (hash x.1)) as Hbucket.
  unfold insert.
  destruct (emplace_hash B this t x.1 (hash x.1)) as [[t1 it1] ins].
  cbn [fst snd] in *. destruct ins; cbn [fst]; [|now split].
  rewrite Hbucket. split.
  - rewrite impls_at_set_ne by lia. exact Hat.
  - unfold impls_set. cbn [impls]. now rewrite length_insert.
Qed.

(** X1. [emplace], with the table's or a caller-supplied hash, and [insert]
    change at most the bucket the hash value routes to: every other bucket
    is afterwards what it was, and the array keeps its length. *)
Theorem calls_touch_one_bucket (this : ptr) t j :
  0 <= j ->
  (forall (x : Key) (h : Z),
     j <> getBucketFromHash B h ->
     impls_at (emplace_hash B this t x h).1.1 j = impls_at t j /\
     length (impls (emplace_hash B this t x h).1.1) = length (impls t)) /\
  (forall x : Key,
     j <> getBucketFromHash B (hash x) ->
     impls_at (emplace hash B this t x).1.1 j = impls_at t j /\
     length (impls (emplace hash B this t x).1.1) = length (impls t)) /\
  (forall x : Key * Mapped,
     j <> getBucketFromHash B (hash x.1) ->
     impls_at (insert hash B this t x).1 j = impls_at t j /\
     length (impls (insert hash B this t x).1) = length (impls t)).
Proof.
  intros Hj. split; [|split].
  - intros x h Hne. now apply emplace_hash_frame.
  - intros x Hne. unfold emplace. now apply emplace_hash_frame.
  - intros x Hne. now apply insert_frame.
Qed.

Lemma beginOfNextNonEmptyBucket_bucket t b :
  0 <= b <= NUM_BUCKETS B ->
  0 <= (beginOfNextNonEmptyBucket B t b).1 < NUM_BUCKETS B /\
  b - 1 <= (beginOfNextNonEmptyBucket B t b).1.
Proof.
  pose proof (NUM_BUCKETS_range B HB) as HN. pose proof modulus_eq as HM.
  intros Hb. unfold beginOfNextNonEmptyBucket.
  destruct (skipEmptyBuckets_first B HB (Z.to_nat (NUM_BUCKETS B)) t b Hb) as (Hr & _);
    [lia|].
  destruct (Z.eqb_spec (skipEmptyBuckets B (Z.to_nat (NUM_BUCKETS B)) t b) (NUM_BUCKETS B))
    as [Heq|Hne]; cbn [negb fst].
  - rewrite Heq, decr_small by lia. lia.
  - lia.
Qed.

Lemma iterator_incr_bucket (mem : ptr -> TwoLevelHashTable) (it : iterator) :
  0 <= bucket it < NUM_BUCKETS B ->
  bucket it <= bucket (iterator_incr B mem it) < NUM_BUCKETS B /\
  container (iterator_incr B mem it) = container it.
Proof.
  pose proof (NUM_BUCKETS_range B HB) as HN. pose proof modulus_eq as HM.
  intros Hb. unfold iterator_incr.
  destruct (impl_it_eqb _ _); [|cbn [bucket container]; split; [lia|reflexivity]].
  pose proof (beginOfNextNonEmptyBucket_bucket (mem (container it))
                (SizeT.incr (bucket it))) as Hnext.
  rewrite incr_small in * by lia.
  destruct (beginOfNextNonEmptyBucket B (mem (container it)) (bucket it + 1)) as [b' cur'].
  cbn [fst bucket container] in *. split; [lia|reflexivity].
Qed.

(** X2. Every cursor the object hands out has its bucket index within the
    array: [begin()], [end()], [find], [emplace] and [insert] return a
    bucket in [0, NUM_BUCKETS), and [operator++] on such a cursor stays in
    the same object, never moves to a lower bucket and never leaves the
    array. *)
Theorem cursor_bucket_within_array (this : ptr) t :
  0 <= bucket (begin B this t) < NUM_BUCKETS B /\
  0 <= bucket (end_ B this t) < NUM_BUCKETS B /\
  (forall x : Key, 0 <= bucket (find hash B this t x) < NUM_BUCKETS B) /\
  (forall (x : Key) (h : Z),
     0 <= bucket (emplace_hash B this t x h).1.2 < NUM_BUCKETS B) /\
  (forall x : Key * Mapped,
     0 <= bucket (insert hash B this t x).2.1 < NUM_BUCKETS B) /\
  (forall (mem : ptr -> TwoLevelHashTable) (it : iterator),
     0 <= bucket it < NUM_BUCKETS B ->
     bucket it <= bucket (iterator_incr B mem it) < NUM_BUCKETS B /\
     container (iterator_incr B mem it) = container it).
Proof.
  pose proof (NUM_BUCKETS_range B HB) as HN.
  assert (Hend : 0 <= bucket (end_ B this t) < NUM_BUCKETS B).
  { unfold end_, MAX_BUCKET. cbn [bucket]. lia. }
  split; [|split; [exact Hend|split; [|split; [|split]]]].
  - unfold begin.
    pose proof (beginOfNextNonEmptyBucket_bucket t 0) as Hbegin.
    destruct (beginOfNextNonEmptyBucket B t 0) as [b cur]. cbn [fst bucket] in *. lia.
  - intros x. unfold find. destruct (negb _); [|exact Hend].
    cbn [bucket]. apply getBucketFromHash_range, HB.
  - intros x h. rewrite emplace_hash_bucket. apply getBucketFromHash_range, HB.
  - intros x. pose proof (emplace_hash_bucket this t x.1 (hash x.1)) as Hbucket.
    unfold insert. destruct (emplace_hash B this t x.1 (hash x.1)) as [[t1 it1] ins].
    cbn [fst snd] in *. rewrite Hbucket. apply getBucketFromHash_range, HB.
  - intros mem it. apply iterator_incr_bucket.
Qed.

End Frame.

(** ** The const cursor *)

Section ConstTraversal.

Context {Key Mapped Impl It : Type} `{!ImplTable Key Mapped Impl It}.

Variable B : Z.

Hypothesis HB : valid_bits B.

Hypothesis HSize : ImplSizeSpec.

Hypothesis HIter : ImplIterSpec.

Lemma ctraverse_from_of (fuel : nat) (mem : ptr -> TwoLevelHashTable) (it last : iterator) :
  ctraverse_from B fuel mem (const_iterator_of it) (const_iterator_of last)
  = traverse_from B fuel mem it last.
Proof.
  revert it. induction fuel as [|fuel IH]; intros it; [reflexivity|].
  cbn [ctraverse_from traverse_from].
  rewrite const_iterator_eqb_of, const_iterator_getPtr_of, const_iterator_incr_of.
  now rewrite IH.
Qed.

(** X3. A loop with [const_iterator] over an object, its two cursors made
    by the converting constructor from [begin()] and [end()], passes the
    cells of bucket 0, then those of bucket 1, and so on, every cell once;
    for every bound on its length it yields what the loop with [iterator]
    yields, and one [operator++] of a converted cursor is the conversion of
    the [iterator]'s. *)
Theorem const_iterator_visits_all_in_bucket_order (mem : ptr -> TwoLevelHashTable)
    (this : ptr) :
  table_wf B (mem this) ->
  (forall fuel, (length (table_cells (mem this)) < fuel)%nat ->
     ctraverse B fuel mem this = Some (concat (impl_cells <$> impls (mem this)))) /\
  (forall fuel, ctraverse B fuel mem this = traverse B fuel mem this) /\
  (forall it : iterator,
     const_iterator_incr B mem (const_iterator_of it)
     = const_iterator_of (iterator_incr B mem it)).
Proof.
  intros Hwf.
  assert (Hsame : forall fuel, ctraverse B fuel mem this = traverse B fuel mem this).
  { intros fuel. unfold ctraverse, traverse. apply ctraverse_from_of. }
  split; [|split; [exact Hsame|]].
  - intros fuel Hfuel. rewrite Hsame.
    now rewrite (traverse_all B HB HSize HIter mem this Hwf fuel Hfuel).
  - intros it. apply const_iterator_incr_of.
Qed.

End ConstTraversal.

(** ** Keys, cells and lookups *)

Section Keys.

Context {Key Mapped : Type} `{EqDecision Key}.
Context {Impl It : Type} `{!ImplTable Key Mapped Impl It}.

Variable hash : Key -> Z.

Variable zero_key : Key.

Variable B : Z.

Hypothesis HB : valid_bits B.

Hypothesis HSize : ImplSizeSpec.

Hypothesis HLookup : ImplLookupSpec hash zero_key.

Hypothesis HIter : ImplIterSpec.

Implicit Types (t : @TwoLevelHashTable Impl) (s : Impl) (i j b : Z).
Implicit Types (k : Key) (c x : Key * Mapped).

Lemma unique_keys_add t t' c :
  unique_keys t -> c.1 ∉ (table_cells t).*1 ->
  table_cells t' ≡ₚ c :: table_cells t -> unique_keys t'.
Proof.
  unfold unique_keys. intros Hnd Hc Hperm. rewrite Hperm, fmap_cons.
  now apply NoDup_cons.
Qed.

(** Under I1 and I2 [find] of the key of a cell is a cursor at that cell. *)
Lemma find_cell (this : ptr) t c :
  table_wf B t -> routed hash B t -> unique_keys t -> c ∈ table_cells t ->
  bucket (find hash B this t c.1) = getBucketFromHash B (hash c.1) /\
  iterator_getPtr (fun _ => t) (find hash B this t c.1) = Some c /\
  iterator_eqb (find hash B this t c.1) (end_ B this t) = false.
Proof.
  intros Hwf Hrouted Hnd Hc.
  destruct (find_spec hash zero_key B HB HLookup this t c.1 Hwf Hrouted) as [Hhit _].
  destruct Hhit as (cur & c' & Hfind & Hptr & Hkey & Hin & Hne);
    [now apply list_elem_of_fmap_2|].
  assert (Hcc : c' = c) by now apply (NoDup_fst_eq (table_cells t)).
  subst c'. rewrite Hfind in *. cbn [bucket].
  split; [reflexivity|split; [|exact Hne]].
  unfold iterator_getPtr. cbn [container bucket current_it]. exact Hptr.
Qed.

Lemma emplace_cells (this : ptr) t k :
  table_wf B t -> routed hash B t ->
  (k ∈ (table_cells t).*1 ->
   exists it c,
     emplace hash B this t k = (t, it, false) /\
     bucket it = getBucketFromHash B (hash k) /\
     iterator_getPtr (fun _ => t) it = Some c /\ c.1 = k /\ c ∈ table_cells t) /\
  (k ∉ (table_cells t).*1 ->
   exists t' it m,
     emplace hash B this t k = (t', it, true) /\
     bucket it = getBucketFromHash B (hash k) /\
     iterator_getPtr (fun _ => t') it = Some (k, m) /\
     table_wf B t' /\ routed hash B t' /\
     table_cells t' ≡ₚ (k, m) :: table_cells t).
Proof.
  intros Hwf Hrouted. pose proof (getBucketFromHash_range B (hash k) HB) as Hb.
  destruct (emplace_hash_spec hash zero_key B HB HLookup this t k Hwf) as [Hhit Hmiss].
  unfold emplace. split; intros Hk.
  - destruct Hhit as (cur & c & Hem & Hptr & Hkey & Hin);
      [now apply (key_in_routed_bucket hash B HB)|].
    eexists _, c. split; [exact Hem|]. cbn [bucket].
    split; [reflexivity|split; [exact Hptr|split; [exact Hkey|]]].
    apply (elem_of_table_cells B); [assumption|].
    now exists (getBucketFromHash B (hash k)).
  - destruct Hmiss as (s' & cur & m & Hem & Hperm & Hptr);
      [now apply (not_in_bucket B)|].
    destruct (add_cell_routed hash B HB t (k, m) s' Hwf Hrouted Hperm)
      as (Hwf' & Hr' & Hcells). cbn [fst] in *.
    eexists _, _, m. split; [exact Hem|]. cbn [bucket].
    split; [reflexivity|split; [|now repeat split]].
    unfold iterator_getPtr. cbn [container bucket current_it].
    now rewrite (impls_at_set_eq B).
Qed.

(** X4. [emplace(x)] reserves or locates.  For a key that is not in the
    object it reports inserted, adds exactly one slot with that key, in the
    bucket its hash routes to, returns a cursor at the slot, and [size()]
    grows by one; for a key that is there it reports not inserted, leaves
    the object as it is and returns a cursor at the cell with that key. *)
Theorem emplace_reserves_or_locates (this : ptr) t k :
  table_wf B t -> routed hash B t -> table_count t + 1 < SizeT.modulus ->
  (k ∉ (table_cells t).*1 ->
   exists t' it m,
     emplace hash B this t k = (t', it, true) /\
     bucket it = getBucketFromHash B (hash k) /\
     iterator_getPtr (fun _ => t') it = Some (k, m) /\
     table_cells t' ≡ₚ (k, m) :: table_cells t /\
     size B t' = size B t + 1) /\
  (k ∈ (table_cells t).*1 ->
   exists it c,
     emplace hash B this t k = (t, it, false) /\
     bucket it = getBucketFromHash B (hash k) /\
     iterator_getPtr (fun _ => t) it = Some c /\ c.1 = k /\ c ∈ table_cells t).
Proof.
  intros Hwf Hrouted Hfit. destruct (emplace_cells this t k Hwf Hrouted) as [Hhit Hmiss].
  split; [|exact Hhit]. intros Hk.
  destruct (Hmiss Hk) as (t' & it & m & Hem & Hbucket & Hptr & Hwf' & _ & Hcells).
  exists t', it, m. repeat (split; [assumption|]).
  assert (Hcount : table_count t' = table_count t + 1).
  { rewrite !(table_count_cells HSize), Hcells. cbn [length]. lia. }
  rewrite !(size_count B) by (assumption || (unfold table_fits; lia)). exact Hcount.
Qed.

(** X5. [insert] never overwrites: when the key of the value is in the
    object, the call reports not inserted, the object is unchanged, and the
    returned cursor is at the cell that was there, with its old mapped
    value. *)
Theorem insert_keeps_existing_value (this : ptr) t k (v0 v : Mapped) :
  table_wf B t -> routed hash B t -> unique_keys t ->
  (k, v0) ∈ table_cells t ->
  exists it,
    insert hash B this t (k, v) = (t, (it, false)) /\
    bucket it = getBucketFromHash B (hash k) /\
    iterator_getPtr (fun _ => t) it = Some (k, v0).
Proof.
  intros Hwf Hrouted Hnd Hin.
  destruct (insert_spec hash zero_key B HB HLookup this t (k, v) Hwf) as [Hhit _].
  cbn [fst] in Hhit.
  destruct Hhit as (cur & c & Hins & Hptr & Hkey & Hc).
  { apply (key_in_routed_bucket hash B HB); [assumption..|].
    now apply (list_elem_of_fmap_2 fst _ (k, v0)). }
  assert (Hcc : c = (k, v0)).
  { apply (NoDup_fst_eq (table_cells t)); [exact Hnd| |exact Hin|exact Hkey].
    apply (elem_of_table_cells B); [assumption|].
    exists (getBucketFromHash B (hash k)). split; [|exact Hc].
    apply getBucketFromHash_range, HB. }
  subst c. eexists. split; [exact Hins|]. cbn [bucket]. split; [reflexivity|].
  unfold iterator_getPtr. cbn [container bucket current_it]. exact Hptr.
Qed.

(** X6. After [insert] of a value with a new key, [find] of that key is at
    the new cell; [find] of every key that was in the object is at the same
    cell as before; and keys that are neither still give [end()]. *)
Theorem find_after_insert_of_new_key (this : ptr) t k (v : Mapped) :
  table_wf B t -> routed hash B t -> unique_keys t ->
  k ∉ (table_cells t).*1 ->
  iterator_getPtr (fun _ => (insert hash B this t (k, v)).1)
    (find hash B this (insert hash B this t (k, v)).1 k) = Some (k, v) /\
  (forall c, c ∈ table_cells t ->
     iterator_getPtr (fun _ => (insert hash B this t (k, v)).1)
       (find hash B this (insert hash B this t (k, v)).1 c.1) = Some c /\
     iterator_getPtr (fun _ => t) (find hash B this t c.1) = Some c) /\
  (forall k', k' <> k -> k' ∉ (table_cells t).*1 ->
     find hash B this (insert hash B this t (k, v)).1 k'
     = end_ B this (insert hash B this t (k, v)).1).
Proof.
  intros Hwf Hrouted Hnd Hk.
  destruct (insert_adds hash zero_key B HB HLookup this t (k, v) Hwf Hrouted)
    as (Hwf1 & Hr1 & _ & Hcells).
  specialize (Hcells Hk).
  set (t1 := (insert hash B this t (k, v)).1) in *.
  assert (Hnd1 : unique_keys t1) by now apply (unique_keys_add t t1 (k, v)).
  split; [|split].
  - apply (find_cell this t1 (k, v)); [assumption..|]. rewrite Hcells. now left.
  - intros c Hc. split.
    + apply (find_cell this t1 c); [assumption..|]. rewrite Hcells. now right.
    + now apply (find_cell this t c).
  - intros k' Hne Hk'.
    destruct (find_spec hash zero_key B HB HLookup this t1 k' Hwf1 Hr1) as [_ Hmiss].
    apply Hmiss. rewrite Hcells, fmap_cons. intros Hin.
    apply elem_of_cons in Hin as [Hin|Hin]; [now apply Hne|now apply Hk'].
Qed.

Lemma apply_request_unique (this : ptr) t (r : request) :
  table_wf B t -> routed hash B t -> unique_keys t ->
  unique_keys (apply_request hash B this t r).
Proof.
  intros Hwf Hrouted Hnd. destruct r as [x|k]; cbn [apply_request].
  - destruct (insert_adds hash zero_key B HB HLookup this t x Hwf Hrouted)
      as (_ & _ & Hhit & Hmiss).
    destruct (decide (x.1 ∈ (table_cells t).*1)) as [Hk|Hk].
    + now rewrite (Hhit Hk).
    + now apply (unique_keys_add t _ x); [| |apply Hmiss].
  - destruct (emplace_cells this t k Hwf Hrouted) as [Hhit Hmiss].
    destruct (decide (k ∈ (table_cells t).*1)) as [Hk|Hk].
    + destruct (Hhit Hk) as (it & c & Hem & _). now rewrite Hem.
    + destruct (Hmiss Hk) as (t' & it & m & Hem & _ & _ & _ & _ & Hcells).
      rewrite Hem. cbn [fst]. now apply (unique_keys_add t t' (k, m)).
Qed.

Lemma apply_request_routed (this : ptr) t (r : request) :
  table_wf B t -> routed hash B t ->
  table_wf B (apply_request hash B this t r) /\
  routed hash B (apply_request hash B this t r).
Proof.
  intros Hwf Hrouted. destruct r as [x|k]; cbn [apply_request].
  - destruct (insert_adds hash zero_key B HB HLookup this t x Hwf Hrouted)
      as (Hwf' & Hr' & _). now split.
  - destruct (emplace_adds hash zero_key B HB HLookup this t k Hwf Hrouted)
      as (Hwf' & Hr' & _). now split.
Qed.

Lemma run_unique (this : ptr) (rs : list request) t :
  table_wf B t -> routed hash B t -> unique_keys t ->
  unique_keys (run hash B this rs t).
Proof.
  revert t. induction rs as [|r rs IH]; intros t Hwf Hrouted Hnd; [exact Hnd|].
  unfold run. cbn [foldl]. destruct (apply_request_routed this t r Hwf Hrouted).
  apply IH; [assumption..|]. now apply apply_request_unique.
Qed.

(** X7. Calls of [insert] and [emplace] keep the object's invariants: the
    array has its [NUM_BUCKETS] buckets, every cell is in the bucket its
    key's hash routes to (I1), no key is in two cells (I2), and the keys of
    the object are those it had and those of the calls. *)
Theorem requests_keep_invariants (this : ptr) (rs : list request) t :
  table_wf B t -> routed hash B t -> unique_keys t ->
  table_wf B (run hash B this rs t) /\
  routed hash B (run hash B this rs t) /\
  unique_keys (run hash B this rs t) /\
  forall k, k ∈ (table_cells (run hash B this rs t)).*1
            <-> k ∈ request_key <$> rs \/ k ∈ (table_cells t).*1.
Proof.
  intros Hwf Hrouted Hnd.
  destruct (run_inv hash zero_key B HB HLookup this rs t Hwf Hrouted)
    as (Hwf' & Hr' & Hkeys).
  split; [exact Hwf'|split; [exact Hr'|split; [|exact Hkeys]]].
  now apply run_unique.
Qed.

Lemma table_new_unique : unique_keys (table_new (Impl := Impl) B).
Proof.
  unfold unique_keys. rewrite (table_new_cells hash zero_key B HLookup).
  constructor.
Qed.

(** X8. Iterating an object built by [insert] and [emplace] calls from a
    new one yields every key of the calls, and each of them once. *)
Theorem traversal_after_requests (mem : ptr -> TwoLevelHashTable) (this : ptr)
    (rs : list request) :
  mem this = run hash B this rs (table_new B) ->
  exists l,
    (forall fuel, (length rs < fuel)%nat -> traverse B fuel mem this = Some l) /\
    NoDup l.*1 /\
    forall k, k ∈ l.*1 <-> k ∈ request_key <$> rs.
Proof.
  intros Hmem.
  destruct (run_inv hash zero_key B HB HLookup this rs (table_new B) (table_new_wf B)
              (table_new_routed hash zero_key B HLookup)) as (Hwf & _ & Hkeys).
  pose proof (run_unique this rs (table_new B) (table_new_wf B)
                (table_new_routed hash zero_key B HLookup) table_new_unique) as Hnd.
  rewrite <- Hmem in Hwf, Hkeys, Hnd.
  assert (Hkeys' : forall k, k ∈ (table_cells (mem this)).*1 <-> k ∈ request_key <$> rs).
  { intros k. rewrite Hkeys, (table_new_cells hash zero_key B HLookup).
    split; [intros [Hk|Hk]; [exact Hk|now apply elem_of_nil in Hk]|now left]. }
  exists (table_cells (mem this)). split; [|split; [exact Hnd|exact Hkeys']].
  intros fuel Hfuel. apply (traverse_all B HB HSize HIter mem this Hwf).
  assert (Hle : (length (table_cells (mem this)).*1 <= length (request_key <$> rs))%nat).
  { apply submseteq_length, NoDup_submseteq; [exact Hnd|].
    intros k Hk. now apply Hkeys'. }
  rewrite !length_fmap in Hle.
  apply (Nat.le_lt_trans _ (length rs)); [exact Hle|exact Hfuel].
Qed.

End Keys.

(** ** The converted object, the new object, and [size()] against the cursor *)

Section Conversion.

Context {Key Mapped : Type} `{EqDecision Key}.
Context {Impl It : Type} `{!ImplTable Key Mapped Impl It}.

Variable hash : Key -> Z.

Variable zero_key : Key.

Variable B : Z.

Hypothesis HB : valid_bits B.

Hypothesis HSize : ImplSizeSpec.

Hypothesis HLookup : ImplLookupSpec hash zero_key.

Hypothesis HIter : ImplIterSpec.

Implicit Types (t : @TwoLevelHashTable Impl) (s : Impl) (i j b : Z).
Implicit Types (k : Key) (c x : Key * Mapped).

(** X9. The object converted from a source table holds exactly the
    source's cells, each in the bucket its key's hash routes to and no key
    twice, and [find] of a key that is not in the source returns [end()]. *)
Theorem converted_table_invariants (this : ptr) (src : list (Key * Mapped))
    (getHash : Key * Mapped -> Z) :
  source_ok hash zero_key src getHash ->
  table_wf B (TwoLevelHashTable_of hash zero_key B this src getHash) /\
  routed hash B (TwoLevelHashTable_of hash zero_key B this src getHash) /\
  unique_keys (TwoLevelHashTable_of hash zero_key B this src getHash) /\
  table_cells (TwoLevelHashTable_of hash zero_key B this src getHash) ≡ₚ src /\
  forall k, k ∉ src.*1 ->
    find hash B this (TwoLevelHashTable_of hash zero_key B this src getHash) k
    = end_ B this (TwoLevelHashTable_of hash zero_key B this src getHash).
Proof.
  intros Hsrc.
  destruct (TwoLevelHashTable_of_inv hash zero_key B HB HLookup this src getHash Hsrc)
    as (Hwf & Hrouted & Hcells).
  destruct Hsrc as (Hnd & _).
  repeat (split; [assumption|]). split; [|split; [exact Hcells|]].
  - unfold unique_keys. now rewrite Hcells.
  - intros k Hk.
    destruct (find_spec hash zero_key B HB HLookup this _ k Hwf Hrouted) as [_ Hmiss].
    apply Hmiss. now rewrite Hcells.
Qed.

(** X10. Iterating the converted object yields the cells of the source,
    every one once, in some order. *)
Theorem traversal_of_converted (mem : ptr -> TwoLevelHashTable) (this : ptr)
    (src : list (Key * Mapped)) (getHash : Key * Mapped -> Z) :
  source_ok hash zero_key src getHash ->
  mem this = TwoLevelHashTable_of hash zero_key B this src getHash ->
  exists l,
    l ≡ₚ src /\
    forall fuel, (length src < fuel)%nat -> traverse B fuel mem this = Some l.
Proof.
  intros Hsrc Hmem.
  destruct (TwoLevelHashTable_of_inv hash zero_key B HB HLookup this src getHash Hsrc)
    as (Hwf & _ & Hcells).
  rewrite <- Hmem in Hwf, Hcells.
  exists (table_cells (mem this)). split; [exact Hcells|].
  intros fuel Hfuel. apply (traverse_all B HB HSize HIter mem this Hwf).
  now rewrite Hcells.
Qed.

Lemma impl_new_empty : impl_empty (impl_new (Impl := Impl)) = true.
Proof.
  apply (impl_empty_cells HSize). apply (impl_new_cells _ _ HLookup).
Qed.

Lemma table_new_empty : empty (Impl := Impl) B (table_new B) = true.
Proof.
  rewrite (empty_forallb B) by apply table_new_wf. unfold table_new. cbn [impls].
  induction (Z.to_nat (NUM_BUCKETS B)) as [|n IH]; [reflexivity|].
  cbn [replicate forallb]. now rewrite impl_new_empty, IH.
Qed.

(** X11. A newly constructed object, which is also what converting an empty
    source gives, is empty: [size()] is 0, [empty()] holds, [begin()] is
    [end()], iterating yields nothing and [find] returns [end()] for every
    key. *)
Theorem new_table_is_empty (this : ptr) :
  (forall getHash, TwoLevelHashTable_of hash zero_key B this [] getHash = table_new B) /\
  size (Impl := Impl) B (table_new B) = 0 /\
  empty (Impl := Impl) B (table_new B) = true /\
  begin B this (table_new B) = end_ (Impl := Impl) B this (table_new B) /\
  (forall fuel, (0 < fuel)%nat ->
     traverse (Impl := Impl) B fuel (fun _ => table_new B) this = Some []) /\
  (forall k, find hash B this (table_new B) k = end_ (Impl := Impl) B this (table_new B)).
Proof.
  split; [reflexivity|split; [|split; [exact table_new_empty|split; [|split]]]].
  - rewrite (size_wrap_count B) by apply table_new_wf.
    now rewrite (table_count_cells HSize), (table_new_cells hash zero_key B HLookup).
  - unfold begin. rewrite (beginOfNextNonEmptyBucket_none B HB); [reflexivity|lia|].
    apply (empty_first_nonempty B HB); [apply table_new_wf|exact table_new_empty].
  - intros fuel Hfuel.
    rewrite (traverse_all B HB HSize HIter (fun _ => table_new B) this (table_new_wf B)).
    + now rewrite (table_new_cells hash zero_key B HLookup).
    + now rewrite (table_new_cells hash zero_key B HLookup).
  - intros k.
    destruct (find_spec hash zero_key B HB HLookup this (table_new B) k (table_new_wf B)
                (table_new_routed hash zero_key B HLookup)) as [_ Hmiss].
    apply Hmiss. rewrite (table_new_cells hash zero_key B HLookup). apply not_elem_of_nil.
Qed.

(** X12. [size()] is the number of steps of the cursor: a loop from
    [begin()] to [end()] bounded by [size() + 1] tests of its condition
    ends at [end()] and has yielded [size()] cells. *)
Theorem size_is_traversal_length (mem : ptr -> TwoLevelHashTable) (this : ptr) :
  table_wf B (mem this) -> table_fits (mem this) ->
  exists l,
    traverse B (S (Z.to_nat (size B (mem this)))) mem this = Some l /\
    size B (mem this) = Z.of_nat (length l).
Proof.
  intros Hwf Hfit.
  assert (Hsize : size B (mem this) = Z.of_nat (length (table_cells (mem this)))).
  { rewrite (size_count B) by assumption. apply (table_count_cells HSize). }
  exists (table_cells (mem this)). split; [|exact Hsize].
  apply (traverse_all B HB HSize HIter mem this Hwf). rewrite Hsize, Nat2Z.id. lia.
Qed.

End Conversion.

(** ** More on reading and writing *)

Section Streams.

Context {Key Mapped Impl It : Type} `{!ImplTable Key Mapped Impl It}.

Variable B : Z.

Implicit Types (t : @TwoLevelHashTable Impl) (s : Impl) (i j : Z).

Lemma read_loop_app t rb (l1 l2 : list Z) :
  read_loop t rb (l1 ++ l2)
  = match read_loop t rb l1 with
    | (t1, Ok rb1) => read_loop t1 rb1 l2
    | (t1, Throw e) => (t1, Throw e)
    end.
Proof.
  revert t rb. induction l1 as [|i l1 IH]; intros t rb; simpl; [reflexivity|].
  destruct (impl_read (impls_at t i) rb) as [s [rb'|e]]; [|reflexivity].
  apply IH.
Qed.

Lemma read_loop_untouched (l : list Z) t rb j :
  Forall (fun i => 0 <= i) l -> 0 <= j -> j ∉ l ->
  impls_at (read_loop t rb l).1 j = impls_at t j.
Proof.
  intros Hl Hj. revert t rb. induction Hl as [|i l Hi Hl IH]; intros t rb Hnot; simpl.
  - reflexivity.
  - apply not_elem_of_cons in Hnot as [Hne Hnot].
    destruct (impl_read (impls_at t i) rb) as [s [rb'|e]]; simpl.
    + rewrite IH by assumption. apply impls_at_set_ne; lia.
    + apply impls_at_set_ne; lia.
Qed.

Lemma read_loop_wf (l : list Z) t rb :
  table_wf B t -> table_wf B (read_loop t rb l).1.
Proof.
  revert t rb. induction l as [|i l IH]; intros t rb Hwf; simpl; [exact Hwf|].
  destruct (impl_read (impls_at t i) rb) as [s [rb'|e]]; simpl.
  - apply IH. now apply impls_set_wf.
  - now apply impls_set_wf.
Qed.

Lemma readText_loop_wf (l : list Z) t rb :
  table_wf B t -> table_wf B (readText_loop t rb l).1.
Proof.
  revert t rb. induction l as [|i l IH]; intros t rb Hwf; simpl; [exact Hwf|].
  destruct (if negb (i =? 0) then assertChar comma rb else Ok rb) as [rb'|e];
    [|exact Hwf].
  destruct (impl_readText (impls_at t i) rb') as [s [rb''|e]]; simpl.
  - apply IH. now apply impls_set_wf.
  - now apply impls_set_wf.
Qed.

(** X13. [read] has no handler: when the read of bucket [i] throws, after
    the buckets before it have been read, [read] throws the same exception;
    the object then has the buckets before [i] as read, bucket [i] as its
    own [read] left it, and the buckets after [i] as they were.  Whatever
    happens, the array keeps its length. *)
Theorem read_propagates_failure t rb :
  table_wf B t ->
  table_wf B (read B t rb).1 /\
  forall i t1 rb1 s e,
    0 <= i < NUM_BUCKETS B ->
    read_loop t rb (seqZ 0 i) = (t1, Ok rb1) ->
    impl_read (impls_at t1 i) rb1 = (s, Throw e) ->
    read B t rb = (impls_set t1 i s, Throw e) /\
    forall j, i < j -> impls_at (impls_set t1 i s) j = impls_at t j.
Proof.
  intros Hwf. split; [now apply read_loop_wf|].
  intros i t1 rb1 s e Hi Hloop Hread. split.
  - unfold read, buckets.
    replace (NUM_BUCKETS B) with (i + (NUM_BUCKETS B - i)) by lia.
    rewrite seqZ_app by lia. rewrite read_loop_app, Hloop.
    rewrite seqZ_cons by lia. cbn [read_loop].
    rewrite Z.add_0_l, Hread. reflexivity.
  - intros j Hj. rewrite impls_at_set_ne by lia.
    pose proof (read_loop_untouched (seqZ 0 i) t rb j) as Hun.
    rewrite Hloop in Hun. apply Hun.
    + apply Forall_seqZ. intros. lia.
    + lia.
    + rewrite elem_of_seqZ. lia.
Qed.

(** X14. [readText] has no handler either: when the comma before bucket
    [i] is there (none is expected before bucket 0) and the bucket's own
    [readText] throws, [readText] throws the same exception, with the
    buckets after [i] as they were; the array keeps its length. *)
Theorem readText_propagates_failure t rb :
  table_wf B t ->
  table_wf B (readText B t rb).1 /\
  forall i t1 rb1 rb2 s e,
    0 <= i < NUM_BUCKETS B ->
    readText_loop t rb (seqZ 0 i) = (t1, Ok rb1) ->
    (if negb (i =? 0) then assertChar comma rb1 else Ok rb1) = Ok rb2 ->
    impl_readText (impls_at t1 i) rb2 = (s, Throw e) ->
    readText B t rb = (impls_set t1 i s, Throw e) /\
    forall j, i < j -> impls_at (impls_set t1 i s) j = impls_at t j.
Proof.
  intros Hwf. split; [now apply readText_loop_wf|].
  intros i t1 rb1 rb2 s e Hi Hloop Hcomma Hread. split.
  - unfold readText, buckets.
    replace (NUM_BUCKETS B) with (i + (NUM_BUCKETS B - i)) by lia.
    rewrite seqZ_app by lia. rewrite readText_loop_app, Hloop.
    rewrite seqZ_cons by lia. cbn [readText_loop].
    rewrite Z.add_0_l, Hcomma, Hread. reflexivity.
  - intros j Hj. rewrite impls_at_set_ne by lia.
    pose proof (readText_loop_untouched (seqZ 0 i) t rb j) as Hun.
    rewrite Hloop in Hun. apply Hun.
    + apply Forall_seqZ. intros. lia.
    + lia.
    + rewrite elem_of_seqZ. lia.
Qed.

Lemma fold_append_prefix (f : WriteBuffer -> Z -> WriteBuffer) (l : list Z) :
  (forall wb1 wb2 i, f (wb1 ++ wb2) i = wb1 ++ f wb2 i) ->
  forall wb1 wb2, foldl f (wb1 ++ wb2) l = wb1 ++ foldl f wb2 l.
Proof.
  intros Hf. induction l as [|i l IH]; intros wb1 wb2; [reflexivity|].
  cbn [foldl]. now rewrite Hf, IH.
Qed.

(** X15. [write] appends the buckets' payloads in index order and nothing
    else, no header and no delimiter; [write] and [writeText] only append:
    what the buffer held stays in front, unchanged. *)
Theorem write_appends_payloads t :
  table_wf B t ->
  (forall wb, write B t wb = wb ++ concat (impl_write <$> impls t)) /\
  Z.of_nat (length (write B t []))
  = sum_Z ((fun s => Z.of_nat (length (impl_write s))) <$> impls t) /\
  (forall wb1 wb2, write B t (wb1 ++ wb2) = wb1 ++ write B t wb2) /\
  (forall wb1 wb2, writeText B t (wb1 ++ wb2) = wb1 ++ writeText B t wb2).
Proof.
  intros Hwf. split; [|split; [|split]].
  - intros wb. now apply write_concat.
  - rewrite (write_concat B) by assumption. cbn [app].
    induction (impls t) as [|s l IH]; [reflexivity|].
    rewrite !fmap_cons, sum_Z_cons. cbn [concat]. rewrite length_app, Nat2Z.inj_add.
    now rewrite IH.
  - unfold write. apply fold_append_prefix. intros wb1 wb2 i. now rewrite app_assoc.
  - unfold writeText. apply fold_append_prefix. intros wb1 wb2 i.
    destruct (negb (i =? 0)); unfold writeChar; now rewrite <- !app_assoc.
Qed.

(** X16. [getBufferSizeInBytes()] is the sum of the buckets' byte counts in
    64-bit arithmetic: the sum modulo [2^64], and the sum itself when it
    fits. *)
Theorem getBufferSizeInBytes_sum t :
  table_wf B t ->
  getBufferSizeInBytes B t
  = SizeT.wrap (sum_Z (impl_getBufferSizeInBytes <$> impls t)) /\
  (0 <= sum_Z (impl_getBufferSizeInBytes <$> impls t) < SizeT.modulus ->
   getBufferSizeInBytes B t = sum_Z (impl_getBufferSizeInBytes <$> impls t)).
Proof.
  intros Hwf.
  assert (Heq : getBufferSizeInBytes B t
                = SizeT.wrap (sum_Z (impl_getBufferSizeInBytes <$> impls t))).
  { unfold getBufferSizeInBytes. change 0 with (SizeT.wrap 0) at 1.
    rewrite (foldl_add_wrap (fun i => impl_getBufferSizeInBytes (impls_at t i))).
    rewrite Z.add_0_l. rewrite <- (impls_buckets B t Hwf).
    now rewrite <- list_fmap_compose. }
  split; [exact Heq|]. intros Hfit. rewrite Heq. now apply wrap_small.
Qed.

End Streams.

(** ** Lookups in an object that was written and read back *)

Section ReadBack.

Context {Key Mapped : Type} `{EqDecision Key}.
Context {Impl It : Type} `{!ImplTable Key Mapped Impl It}.

Variable hash : Key -> Z.

Variable zero_key : Key.

Variable B : Z.

Hypothesis HB : valid_bits B.

Hypothesis HLookup : ImplLookupSpec hash zero_key.

Hypothesis HSer : ImplSerialSpec.

Implicit Types (t : @TwoLevelHashTable Impl) (s : Impl) (i j b : Z).
Implicit Types (k : Key) (c x : Key * Mapped).

Lemma same_cells_at t' t i :
  same_cells (impls t') (impls t) -> table_wf B t -> 0 <= i < NUM_BUCKETS B ->
  impl_cells (impls_at t' i) ≡ₚ impl_cells (impls_at t i).
Proof.
  intros Hsame Hwf Hi. pose proof (same_cells_wf B t' t Hsame Hwf) as Hwf'.
  apply (Forall2_lookup_lr _ _ _ (Z.to_nat i) _ _ Hsame); now apply (lookup_impls_at B).
Qed.

Lemma same_cells_lookups (this : ptr) t' t :
  same_cells (impls t') (impls t) ->
  table_wf B t -> routed hash B t -> unique_keys t ->
  (forall c, c ∈ table_cells t ->
     bucket (find hash B this t' c.1) = getBucketFromHash B (hash c.1) /\
     iterator_getPtr (fun _ => t') (find hash B this t' c.1) = Some c) /\
  (forall k, k ∉ (table_cells t).*1 -> find hash B this t' k = end_ B this t').
Proof.
  intros Hsame Hwf Hrouted Hnd.
  pose proof (same_cells_wf B t' t Hsame Hwf) as Hwf'.
  pose proof (same_cells_table _ _ Hsame) as Hcells. fold (table_cells t') in Hcells.
  fold (table_cells t) in Hcells.
  assert (Hrouted' : routed hash B t').
  { intros i c Hi Hc. rewrite (same_cells_at t' t i Hsame Hwf Hi) in Hc.
    now apply Hrouted. }
  assert (Hnd' : unique_keys t') by (unfold unique_keys; now rewrite Hcells).
  split.
  - intros c Hc.
    destruct (find_cell hash zero_key B HB HLookup this t' c Hwf' Hrouted' Hnd')
      as (Hbucket & Hptr & _); [now rewrite Hcells|]. now split.
  - intros k Hk.
    destruct (find_spec hash zero_key B HB HLookup this t' k Hwf' Hrouted') as [_ Hmiss].
    apply Hmiss. now rewrite Hcells.
Qed.

(** X17. What was written can be looked up after reading it back.  For an
    object that keeps I1 and I2, reading its binary or its text form into a
    new object gives an object in which [find] of the key of every cell of
    the original is a cursor at an equal cell, in the bucket the key's hash
    routes to, and [find] of any other key returns [end()]. *)
Theorem find_after_read_back (this : ptr) t (rest : list byte) :
  table_wf B t -> routed hash B t -> unique_keys t ->
  (exists t',
     read B (table_new B) (write B t [] ++ rest) = (t', Ok rest) /\
     (forall c, c ∈ table_cells t ->
        bucket (find hash B this t' c.1) = getBucketFromHash B (hash c.1) /\
        iterator_getPtr (fun _ => t') (find hash B this t' c.1) = Some c) /\
     (forall k, k ∉ (table_cells t).*1 -> find hash B this t' k = end_ B this t')) /\
  (exists t',
     readText B (table_new B) (writeText B t [] ++ rest) = (t', Ok rest) /\
     (forall c, c ∈ table_cells t ->
        bucket (find hash B this t' c.1) = getBucketFromHash B (hash c.1) /\
        iterator_getPtr (fun _ => t') (find hash B this t' c.1) = Some c) /\
     (forall k, k ∉ (table_cells t).*1 -> find hash B this t' k = end_ B this t')).
Proof.
  intros Hwf Hrouted Hnd. split.
  - destruct (read_written B HSer t rest Hwf) as (t' & Hread & Hsame).
    exists t'. split; [exact Hread|]. now apply same_cells_lookups.
  - destruct (readText_written B HSer t rest HB Hwf) as (t' & Hread & Hsame).
    exists t'. split; [exact Hread|]. now apply same_cells_lookups.
Qed.

End ReadBack.

(** ** The further properties on the reference instance *)

(** An object built from a new one by [insert] and [emplace] calls over the
    reference instance keeps its invariants. *)
Lemma reference_run_invariants (rs : list request) :
  table_wf 8 (run ref_hash 8 O rs (table_new 8)) /\
  routed ref_hash 8 (run ref_hash 8 O rs (table_new 8)) /\
  unique_keys (run ref_hash 8 O rs (table_new 8)).
Proof.
  destruct (run_inv ref_hash zero 8 valid_bits_8 (ref_lookup_spec ref_hash) O rs
              (table_new 8) (table_new_wf 8)
              (table_new_routed ref_hash zero 8 (ref_lookup_spec ref_hash)))
    as (Hwf & Hrouted & _).
  split; [exact Hwf|split; [exact Hrouted|]].
  apply (run_unique ref_hash zero 8 valid_bits_8 (ref_lookup_spec ref_hash)).
  - apply table_new_wf.
  - apply (table_new_routed ref_hash zero 8 (ref_lookup_spec ref_hash)).
  - apply (table_new_unique ref_hash zero 8 (ref_lookup_spec ref_hash)).
Qed.

(** An [insert] of key 7 into [sample], which goes to bucket 8, leaves
    bucket 2 and the length of the array as they are. *)
Lemma calls_touch_one_bucket_witness :
  impls_at (insert ref_hash 8 O sample (x07, x01)).1 2 = impls_at sample 2 /\
  length (impls (insert ref_hash 8 O sample (x07, x01)).1) = length (impls sample).
Proof.
  destruct (calls_touch_one_bucket ref_hash 8 valid_bits_8 O sample 2) as (_ & _ & Hinsert).
  - lia.
  - apply (Hinsert (x07, x01)). vm_compute. discriminate.
Defined.

(** The cursors of [sample]: [begin()], and one step from it. *)
Lemma cursor_bucket_within_array_witness :
  0 <= bucket (begin 8 O sample) < NUM_BUCKETS 8 /\
  bucket (begin 8 O sample)
  <= bucket (iterator_incr 8 (fun _ => sample) (begin 8 O sample)) < NUM_BUCKETS 8 /\
  container (iterator_incr 8 (fun _ => sample) (begin 8 O sample)) = O.
Proof.
  destruct (cursor_bucket_within_array ref_hash 8 valid_bits_8 O sample)
    as (Hbegin & _ & _ & _ & _ & Hincr).
  split; [exact Hbegin|]. destruct (Hincr (fun _ => sample) (begin 8 O sample) Hbegin).
  split; assumption.
Defined.

(** The loop with [const_iterator] over [sample]. *)
Lemma const_iterator_visits_all_in_bucket_order_witness :
  ctraverse 8 4 (fun _ => sample) O = Some [(x01, x0a); (x02, x0b); (x03, x0c)] /\
  ctraverse 8 2 (fun _ => sample) O = traverse 8 2 (fun _ => sample) O.
Proof.
  destruct (const_iterator_visits_all_in_bucket_order 8 valid_bits_8 ref_size_spec
              ref_iter_spec (fun _ => sample) O eq_refl) as (Hall & Hsame & _).
  split; [|apply Hsame]. apply (Hall 4%nat). vm_compute. lia.
Defined.

(** [emplace] of the keys 9 and 5 after an [insert] of key 1 and an
    [emplace] of key 5. *)
Lemma emplace_reserves_or_locates_witness :
  (exists t' it m,
     emplace ref_hash 8 O
       (run ref_hash 8 O [Insert (x01, x0a); Emplace x05] (table_new 8)) x09
     = (t', it, true) /\
     bucket it = getBucketFromHash 8 (ref_hash x09) /\
     iterator_getPtr (fun _ => t') it = Some (x09, m) /\
     table_cells t'
     ≡ₚ (x09, m)
        :: table_cells (run ref_hash 8 O [Insert (x01, x0a); Emplace x05] (table_new 8)) /\
     size 8 t'
     = size 8 (run ref_hash 8 O [Insert (x01, x0a); Emplace x05] (table_new 8)) + 1) /\
  (exists it c,
     emplace ref_hash 8 O
       (run ref_hash 8 O [Insert (x01, x0a); Emplace x05] (table_new 8)) x05
     = (run ref_hash 8 O [Insert (x01, x0a); Emplace x05] (table_new 8), it, false) /\
     bucket it = getBucketFromHash 8 (ref_hash x05) /\
     iterator_getPtr
       (fun _ => run ref_hash 8 O [Insert (x01, x0a); Emplace x05] (table_new 8)) it
     = Some c /\
     c.1 = x05 /\
     c ∈ table_cells (run ref_hash 8 O [Insert (x01, x0a); Emplace x05] (table_new 8))).
Proof.
  destruct (reference_run_invariants [Insert (x01, x0a); Emplace x05])
    as (Hwf & Hrouted & _).
  assert (Hcount : table_count
                     (run ref_hash 8 O [Insert (x01, x0a); Emplace x05] (table_new 8)) + 1
                   < SizeT.modulus) by (vm_compute; reflexivity).
  split.
  - apply (emplace_reserves_or_locates ref_hash zero 8 valid_bits_8 ref_size_spec
             (ref_lookup_spec ref_hash) O _ x09 Hwf Hrouted Hcount).
    apply (bool_decide_unpack _). vm_compute. exact I.
  - apply (emplace_reserves_or_locates ref_hash zero 8 valid_bits_8 ref_size_spec
             (ref_lookup_spec ref_hash) O _ x05 Hwf Hrouted Hcount).
    apply (bool_decide_unpack _). vm_compute. exact I.
Defined.

(** A second [insert] with key 1, after an [insert] of key 1 and an
    [emplace] of key 5. *)
Lemma insert_keeps_existing_value_witness :
  exists it,
    insert ref_hash 8 O
      (run ref_hash 8 O [Insert (x01, x0a); Emplace x05] (table_new 8)) (x01, x0b)
    = (run ref_hash 8 O [Insert (x01, x0a); Emplace x05] (table_new 8), (it, false)) /\
    bucket it = getBucketFromHash 8 (ref_hash x01) /\
    iterator_getPtr
      (fun _ => run ref_hash 8 O [Insert (x01, x0a); Emplace x05] (table_new 8)) it
    = Some (x01, x0a).
Proof.
  destruct (reference_run_invariants [Insert (x01, x0a); Emplace x05])
    as (Hwf & Hrouted & Hnd).
  apply (insert_keeps_existing_value ref_hash zero 8 valid_bits_8
           (ref_lookup_spec ref_hash) O _ x01 x0a x0b Hwf Hrouted Hnd).
  apply (bool_decide_unpack _). vm_compute. exact I.
Defined.

(** [find] of the keys 9 and 7 after an [insert] of key 9 into the object
    with the keys 1 and 5. *)
Lemma find_after_insert_of_new_key_witness :
  iterator_getPtr
    (fun _ => (insert ref_hash 8 O
                 (run ref_hash 8 O [Insert (x01, x0a); Emplace x05] (table_new 8))
                 (x09, x01)).1)
    (find ref_hash 8 O
       (insert ref_hash 8 O
          (run ref_hash 8 O [Insert (x01, x0a); Emplace x05] (table_new 8))
          (x09, x01)).1 x09)
  = Some (x09, x01) /\
  find ref_hash 8 O
    (insert ref_hash 8 O
       (run ref_hash 8 O [Insert (x01, x0a); Emplace x05] (table_new 8))
       (x09, x01)).1 x07
  = end_ 8 O
      (insert ref_hash 8 O
         (run ref_hash 8 O [Insert (x01, x0a); Emplace x05] (table_new 8))
         (x09, x01)).1.
Proof.
  destruct (reference_run_invariants [Insert (x01, x0a); Emplace x05])
    as (Hwf & Hrouted & Hnd).
  destruct (find_after_insert_of_new_key ref_hash zero 8 valid_bits_8
              (ref_lookup_spec ref_hash) O _ x09 x01 Hwf Hrouted Hnd)
    as (Hnew & _ & Hother).
  - apply (bool_decide_unpack _). vm_compute. exact I.
  - split; [exact Hnew|]. apply Hother.
    + discriminate.
    + apply (bool_decide_unpack _). vm_compute. exact I.
Defined.

(** Three calls, two of them with key 1, on a new object. *)
Lemma requests_keep_invariants_witness :
  table_wf 8 (run ref_hash 8 O [Insert (x01, x0a); Emplace x05; Insert (x01, x0b)]
                (table_new 8)) /\
  routed ref_hash 8 (run ref_hash 8 O [Insert (x01, x0a); Emplace x05; Insert (x01, x0b)]
                       (table_new 8)) /\
  unique_keys (run ref_hash 8 O [Insert (x01, x0a); Emplace x05; Insert (x01, x0b)]
                 (table_new 8)).
Proof.
  destruct (requests_keep_invariants ref_hash zero 8 valid_bits_8 (ref_lookup_spec ref_hash)
              O [Insert (x01, x0a); Emplace x05; Insert (x01, x0b)] (table_new 8)
              (table_new_wf 8)
              (table_new_routed ref_hash zero 8 (ref_lookup_spec ref_hash))
              (table_new_unique ref_hash zero 8 (ref_lookup_spec ref_hash)))
    as (Hwf & Hrouted & Hnd & _).
  split; [exact Hwf|split; [exact Hrouted|exact Hnd]].
Defined.

(** The traversal after three calls, two of them with key 1. *)
Lemma traversal_after_requests_witness :
  exists l,
    traverse 8 4
      (fun _ => run ref_hash 8 O [Insert (x01, x0a); Emplace x05; Insert (x01, x0b)]
                  (table_new 8)) O
    = Some l /\
    NoDup l.*1 /\
    (x05 ∈ l.*1 <-> x05 ∈ [x01; x05; x01]).
Proof.
  destruct (traversal_after_requests ref_hash zero 8 valid_bits_8 ref_size_spec
              (ref_lookup_spec ref_hash) ref_iter_spec
              (fun _ => run ref_hash 8 O [Insert (x01, x0a); Emplace x05; Insert (x01, x0b)]
                          (table_new 8))
              O [Insert (x01, x0a); Emplace x05; Insert (x01, x0b)] eq_refl)
    as (l & Htr & Hnd & Hkeys).
  exists l. split; [|split; [exact Hnd|exact (Hkeys x05)]].
  apply Htr. cbn [length]. lia.
Defined.

(** The conversion of [source_5]: its invariants, and [find] of key 9. *)
Lemma converted_table_invariants_witness :
  table_wf 8 (converted source_5) /\
  routed ref_hash 8 (converted source_5) /\
  unique_keys (converted source_5) /\
  table_cells (converted source_5) ≡ₚ source_5 /\
  find ref_hash 8 O (converted source_5) x09 = end_ 8 O (converted source_5).
Proof.
  destruct (converted_table_invariants ref_hash zero 8 valid_bits_8
              (ref_lookup_spec ref_hash) O source_5 ref_getHash source_5_ok)
    as (Hwf & Hrouted & Hnd & Hcells & Hfind).
  split; [exact Hwf|split; [exact Hrouted|split; [exact Hnd|split; [exact Hcells|]]]].
  apply Hfind. apply (bool_decide_unpack _). vm_compute. exact I.
Defined.

(** The traversal of the conversion of [source_5]. *)
Lemma traversal_of_converted_witness :
  exists l,
    l ≡ₚ source_5 /\
    traverse 8 3 (fun _ => converted source_5) O = Some l.
Proof.
  destruct (traversal_of_converted ref_hash zero 8 valid_bits_8 ref_size_spec
              (ref_lookup_spec ref_hash) ref_iter_spec (fun _ => converted source_5) O
              source_5 ref_getHash source_5_ok eq_refl) as (l & Hperm & Htr).
  exists l. split; [exact Hperm|]. apply Htr. vm_compute. lia.
Defined.

(** A new object of 256 buckets over the reference instance. *)
Lemma new_table_is_empty_witness :
  size (Impl := RefTable) 8 (table_new 8) = 0 /\
  empty (Impl := RefTable) 8 (table_new 8) = true /\
  begin 8 O (table_new 8) = end_ (Impl := RefTable) 8 O (table_new 8) /\
  traverse 8 1 (fun _ => table_new (Impl := RefTable) 8) O = Some [] /\
  find ref_hash 8 O (table_new 8) x05 = end_ 8 O (table_new 8).
Proof.
  destruct (new_table_is_empty ref_hash zero 8 valid_bits_8 ref_size_spec
              (ref_lookup_spec ref_hash) ref_iter_spec O)
    as (_ & Hsize & Hempty & Hbegin & Htr & Hfind).
  split; [exact Hsize|split; [exact Hempty|split; [exact Hbegin|split]]].
  - apply Htr. lia.
  - apply Hfind.
Defined.

(** [size()] and the traversal of [sample]. *)
Lemma size_is_traversal_length_witness :
  exists l,
    traverse 8 (S (Z.to_nat (size 8 sample))) (fun _ => sample) O = Some l /\
    size 8 sample = Z.of_nat (length l).
Proof.
  apply (size_is_traversal_length 8 valid_bits_8 ref_size_spec ref_iter_spec
           (fun _ => sample) O).
  - reflexivity.
  - vm_compute. reflexivity.
Defined.

(** A binary buffer whose second bucket does not parse. *)
Lemma read_propagates_failure_witness :
  table_wf 2 (read (Impl := RefTable) 2 (table_new 2) [x00; x07]).1 /\
  read (Impl := RefTable) 2 (table_new 2) [x00; x07]
  = (impls_set (table_new 2) 1 [], Throw (ImplFailure 1)).
Proof.
  destruct (read_propagates_failure 2 (table_new (Impl := RefTable) 2) [x00; x07]
              (table_new_wf 2)) as [Hwf Hthrow].
  split; [exact Hwf|].
  destruct (Hthrow 1 (table_new 2) [x07] [] (ImplFailure 1)) as [Hread _].
  - vm_compute. split; [discriminate|reflexivity].
  - reflexivity.
  - reflexivity.
  - exact Hread.
Defined.

(** A text buffer whose second bucket does not parse. *)
Lemma readText_propagates_failure_witness :
  table_wf 2 (readText (Impl := RefTable) 2 (table_new 2) [x3b; comma; x07]).1 /\
  readText (Impl := RefTable) 2 (table_new 2) [x3b; comma; x07]
  = (impls_set (table_new 2) 1 [], Throw (ImplFailure 1)).
Proof.
  destruct (readText_propagates_failure 2 (table_new (Impl := RefTable) 2)
              [x3b; comma; x07] (table_new_wf 2)) as [Hwf Hthrow].
  split; [exact Hwf|].
  destruct (Hthrow 1 (table_new 2) [comma; x07] [x07] [] (ImplFailure 1)) as [Hread _].
  - vm_compute. split; [discriminate|reflexivity].
  - reflexivity.
  - reflexivity.
  - reflexivity.
  - exact Hread.
Defined.

(** The binary form of [small], after a byte that was in the buffer. *)
Lemma write_appends_payloads_witness :
  write 2 small [x2a] = [x2a] ++ concat (impl_write <$> impls small) /\
  writeText 2 small ([x2a] ++ []) = [x2a] ++ writeText 2 small [].
Proof.
  destruct (write_appends_payloads 2 small eq_refl) as (Hwrite & _ & _ & Htext).
  split; [apply Hwrite|apply Htext].
Defined.

(** The byte count of [sample]. *)
Lemma getBufferSizeInBytes_sum_witness :
  getBufferSizeInBytes 8 sample
  = SizeT.wrap (sum_Z (impl_getBufferSizeInBytes <$> impls sample)) /\
  getBufferSizeInBytes 8 sample = sum_Z (impl_getBufferSizeInBytes <$> impls sample).
Proof.
  destruct (getBufferSizeInBytes_sum 8 sample eq_refl) as [Hwrap Hfits].
  split; [exact Hwrap|]. apply Hfits. vm_compute. split; [discriminate|reflexivity].
Defined.

(** [find] of the keys 5 and 9 in the object read back from the binary form
    of the object with the keys 1 and 5. *)
Lemma find_after_read_back_witness :
  exists t',
    read 8 (table_new 8)
      (write 8 (run ref_hash 8 O [Insert (x01, x0a); Emplace x05] (table_new 8)) []
       ++ [x2a])
    = (t', Ok [x2a]) /\
    iterator_getPtr (fun _ => t') (find ref_hash 8 O t' x05) = Some (x05, x00) /\
    find ref_hash 8 O t' x09 = end_ 8 O t'.
Proof.
  destruct (reference_run_invariants [Insert (x01, x0a); Emplace x05])
    as (Hwf & Hrouted & Hnd).
  destruct (find_after_read_back ref_hash zero 8 valid_bits_8 (ref_lookup_spec ref_hash)
              ref_serial_spec O _ [x2a] Hwf Hrouted Hnd)
    as [(t' & Hread & Hin & Hout) _].
  exists t'. split; [exact Hread|split].
  - apply (Hin (x05, x00)). apply (bool_decide_unpack _). vm_compute. exact I.
  - apply Hout. apply (bool_decide_unpack _). vm_compute. exact I.
Defined.
